(** * wal_utils: timeline history parsing and WAL segment enumeration

    A shallow embedding of [wal_utils/wal_utils.c]: the history-file parser
    [parseTimeLineHistory] and the set-returning function
    [build_wal_segment_list].

    Conventions.
    - [TimeLineID] and the switchpoint halves are [uint32], [XLogRecPtr] and
      [XLogSegNo] are [uint64]; both are represented by [Z] and every
      operation that can leave the range is wrapped explicitly.
    - A C string is a Rocq [string]; the buffer ends at its end or at the
      first NUL character, whichever comes first.
    - [ereport(ERROR, ...)] is a control effect: it is modelled by the
      [Raised] outcome of the monad [M], which also threads the tuplestore.
    - The [while] loop of [build_wal_segment_list] is bounded by a fuel
      argument because the cursor arithmetic wraps around at 2^64. *)

From Stdlib Require Import ZArith List String Ascii Bool Lia Sorted.
Import ListNotations.

Open Scope string_scope.
Open Scope list_scope.
Open Scope Z_scope.

Infix "+++" := String.append (right associativity, at level 60).

(** ** Machine integers *)

Definition wrap32 (z : Z) : Z := z mod 2 ^ 32.
Definition wrap64 (z : Z) : Z := z mod 2 ^ 64.

(** ** Characters *)

Definition code (c : ascii) : Z := Z.of_N (N_of_ascii c).

(** [isspace] in the C locale: space, and the control characters
    [\t \n \v \f \r]. *)
Definition isspace (c : ascii) : bool :=
  (code c =? 32) || ((9 <=? code c) && (code c <=? 13)).

Definition is_nul (c : ascii) : bool := code c =? 0.
Definition is_newline (c : ascii) : bool := code c =? 10.

(** Value of a digit in the given base, for bases 10 and 16. *)
Definition digit_value (base : Z) (c : ascii) : option Z :=
  let n := code c in
  if (48 <=? n) && (n <=? 57) then Some (n - 48)
  else if (base =? 16) && (65 <=? n) && (n <=? 70) then Some (n - 55)
  else if (base =? 16) && (97 <=? n) && (n <=? 102) then Some (n - 87)
  else None.

(** ** The [sscanf] call of line 84

    [sscanf(fline, "%u\t%X/%X", &tli, &switchpoint_hi, &switchpoint_lo)]
    belongs to the C library.  The model follows the GNU C library
    ([stdio-common/vfscanf-internal.c]) for this one format: [%u] and
    [%X] skip white space, accept an optional sign and need one digit;
    the white-space directive skips any amount of white space; [/]
    matches itself.  For [%X], an [x] or [X] that follows a leading [0]
    is read and dropped, whether or not a hexadecimal digit comes after
    it: the leading [0] is a digit already, so [0x] alone is the number
    0 and leaves nothing of it unread.  (ISO C counts a lone [0x] as a
    matching failure; the library does not.)  The digits are converted
    as [strtoul] does on a 64-bit [unsigned long] (saturating at
    [ULONG_MAX], negation modulo 2^64) and the value is then stored into
    a 32-bit object. *)

Module Scanf.

Fixpoint skip_space (s : string) : string :=
  match s with
  | String c rest => if isspace c then skip_space rest else s
  | EmptyString => s
  end.

(** Longest prefix of digits: their number, the value they denote on
    top of [acc], and what follows them. *)
Fixpoint digits (base : Z) (s : string) (acc : Z) : nat * Z * string :=
  match s with
  | String c rest =>
      match digit_value base c with
      | Some d =>
          let '(n, v, s') := digits base rest (acc * base + d) in
          (S n, v, s')
      | None => (O, acc, s)
      end
  | EmptyString => (O, acc, s)
  end.

Definition sign (s : string) : bool * string :=
  match s with
  | String "-" rest => (true, rest)
  | String "+" rest => (false, rest)
  | _ => (false, s)
  end.

(** [%X]: after a leading [0], an [x] or [X] is read and dropped; the
    [0] stays in front of the digits that follow. *)
Definition hex_prefix (s : string) : string :=
  match s with
  | String "0" (String x rest) =>
      if (code x =? 120) || (code x =? 88) then String "0" rest else s
  | _ => s
  end.

Definition ULONG_MAX : Z := 2 ^ 64 - 1.

(** One [%u] (base 10) or [%X] (base 16) conversion into a [uint32]. *)
Definition unsigned (base : Z) (s : string) : option (Z * string) :=
  let (neg, s1) := sign (skip_space s) in
  let s2 := if base =? 16 then hex_prefix s1 else s1 in
  match digits base s2 0 with
  | (O, _, _) => None
  | (_, v, rest) =>
      let num := if ULONG_MAX <? v then ULONG_MAX
                 else if neg then wrap64 (- v) else v in
      Some (wrap32 num, rest)
  end.

Definition literal (c : ascii) (s : string) : option string :=
  match s with
  | String c' rest => if Ascii.eqb c c' then Some rest else None
  | EmptyString => None
  end.

End Scanf.

(** What [sscanf] leaves behind: the objects it assigned, in order. *)
Inductive scanned : Type :=
| NoField
| OneField (tli : Z)
| TwoFields (tli switchpoint_hi : Z)
| ThreeFields (tli switchpoint_hi switchpoint_lo : Z).

(** The return value of [sscanf].  An input failure before the first
    conversion returns [EOF]; it is counted here with the matching
    failure, since the caller only tests [nfields < 1]. *)
Definition nfields (r : scanned) : Z :=
  match r with
  | NoField => 0
  | OneField _ => 1
  | TwoFields _ _ => 2
  | ThreeFields _ _ _ => 3
  end.

Definition sscanf (fline : string) : scanned :=
  match Scanf.unsigned 10 fline with
  | None => NoField
  | Some (tli, s1) =>
      match Scanf.unsigned 16 (Scanf.skip_space s1) with
      | None => OneField tli
      | Some (hi, s2) =>
          match Scanf.literal "/" s2 with
          | None => TwoFields tli hi
          | Some s3 =>
              match Scanf.unsigned 16 s3 with
              | None => TwoFields tli hi
              | Some (lo, _) => ThreeFields tli hi lo
              end
          end
      end
  end.

(** ** Data model *)

(** [TimeLineHistoryEntry] of [access/timeline.h]. *)
Record TimeLineHistoryEntry : Type := mkEntry {
  tli : Z;      (* TimeLineID *)
  begin : Z;    (* XLogRecPtr, inclusive *)
  end_ : Z      (* XLogRecPtr, exclusive *)
}.

Definition InvalidXLogRecPtr : Z := 0.

(** The errors raised with [ereport(ERROR, ...)], one constructor per call
    site, each carrying what the message prints. *)
Inductive wal_error : Type :=
| MissingTimelineId (fline : string)          (* line 89 *)
| MissingSwitchPoint (fline : string)         (* line 95 *)
| NonIncreasingTimeline (fline : string)      (* line 100 *)
| OriginNewerThanTarget (origin_lsn target_lsn : Z)          (* line 273 *)
| OriginTimelineNewerThanTarget (origin_tli target_tli : Z)  (* line 281 *)
| HistoryTimelineNotOlderThanTarget (last_tli target_tli : Z) (* line 295 *)
| HistoryEndNewerThanTarget (last_end target_lsn : Z)        (* line 301 *)
| OriginNotDirectParent.                                      (* line 327 *)

(** ** parseTimeLineHistory *)

(** Lines 67-73: the buffer is cut at every newline; the piece after the
    last newline (possibly empty) is the last line. *)
Fixpoint split_lines (buffer : string) : list string :=
  match buffer with
  | EmptyString => [EmptyString]
  | String c rest =>
      if is_nul c then [EmptyString]
      else if is_newline c then EmptyString :: split_lines rest
      else match split_lines rest with
           | fline :: others => String c fline :: others
           | [] => [String c EmptyString]
           end
  end.

(** Lines 75-82: a line is skipped when nothing or a [#] follows its
    leading white space. *)
Definition is_comment (fline : string) : bool :=
  match Scanf.skip_space fline with
  | EmptyString => true
  | String c _ => is_nul c || Ascii.eqb c "#"
  end.

Inductive line_result : Type :=
| Skipped
| Failed (e : wal_error)
| Parsed (entry : TimeLineHistoryEntry).

(** One iteration of the loop body, lines 75-112. *)
Definition parse_line (lasttli prevend : Z) (fline : string) : line_result :=
  if is_comment fline then Skipped
  else
    let r := sscanf fline in
    if nfields r <? 1 then Failed (MissingTimelineId fline)
    else if negb (nfields r =? 3) then Failed (MissingSwitchPoint fline)
    else
      match r with
      | ThreeFields t switchpoint_hi switchpoint_lo =>
          if t <=? lasttli then Failed (NonIncreasingTimeline fline)
          else Parsed {| tli := t;
                         begin := prevend;
                         end_ := Z.lor (Z.shiftl switchpoint_hi 32)
                                       switchpoint_lo |}
      | _ => Failed (MissingSwitchPoint fline)
      end.

(** The loop of lines 58-117 over the lines of the buffer, with the loop
    variables [lasttli], [prevend] and [entries]. *)
Fixpoint parse_lines (lines : list string) (lasttli prevend : Z)
    (entries : list TimeLineHistoryEntry)
  : wal_error + list TimeLineHistoryEntry :=
  match lines with
  | [] => inr entries
  | fline :: rest =>
      match parse_line lasttli prevend fline with
      | Skipped => parse_lines rest lasttli prevend entries
      | Failed e => inl e
      | Parsed entry =>
          parse_lines rest (tli entry) (end_ entry) (entries ++ [entry])
      end
  end.

Definition parseTimeLineHistory (buffer : string)
  : wal_error + list TimeLineHistoryEntry :=
  parse_lines (split_lines buffer) 0 InvalidXLogRecPtr [].

Definition LF : string := String (ascii_of_nat 10) EmptyString.
Definition TAB : string := String (ascii_of_nat 9) EmptyString.


(** ** Segment arithmetic and naming

    [XLOG_SEG_SIZE] is fixed when PostgreSQL is configured (a power of two,
    16 MB by default); it is a parameter of everything below.  The macros
    are those of PostgreSQL's [access/xlog_internal.h], which line 18
    includes, as they stand in the releases whose [XLByteToPrevSeg] takes
    two arguments and whose [XLogFileName] takes three (9.3 to 10). *)

Section SegmentSize.

Variable XLOG_SEG_SIZE : Z.

(** [#define XLogSegmentsPerXLogId (UINT64CONST(0x100000000) / XLOG_SEG_SIZE)] *)
Definition XLogSegmentsPerXLogId : Z := 4294967296 / XLOG_SEG_SIZE.

(** [#define XLByteToPrevSeg(xlrp, logSegNo) logSegNo = ((xlrp) - 1) / XLogSegSize]:
    the segment holding the byte just before [xlrp], in [uint64]
    arithmetic.  Applied to the cursor, which starts one boundary after
    the origin, it gives what the comment of lines 344-346 announces:
    the first segment is the one of the origin LSN. *)
Definition XLByteToPrevSeg (xlrp : Z) : Z :=
  wrap64 (xlrp - 1) / XLOG_SEG_SIZE.

(** Lines 352-353 and 376-377: add one segment and round down to the
    start of a segment.  The addition is a [uint64] addition; the
    subtraction cannot go below zero. *)
Definition next_segment_start (lsn : Z) : Z :=
  let current_seg_lsn := wrap64 (lsn + XLOG_SEG_SIZE) in
  current_seg_lsn - current_seg_lsn mod XLOG_SEG_SIZE.

End SegmentSize.

(** The digit that [%X] prints for a value below 16. *)
Definition hex_digit (d : Z) : ascii :=
  ascii_of_N (Z.to_N (if d <? 10 then 48 + d else 55 + d)).

(** The last [n] hexadecimal digits of [v], most significant first. *)
Fixpoint hex (n : nat) (v : Z) : string :=
  match n with
  | O => EmptyString
  | S k => hex k (v / 16) +++ String (hex_digit (v mod 16)) EmptyString
  end.

(** [%08X] applied to a [uint32]: always eight digits. *)
Definition hex08 (v : Z) : string := hex 8 (wrap32 v).

(** [#define XLogFileName(fname, tli, logSegNo)
      snprintf(fname, MAXFNAMELEN, "%08X%08X%08X", tli,
               (uint32) ((logSegNo) / XLogSegmentsPerXLogId),
               (uint32) ((logSegNo) % XLogSegmentsPerXLogId))] *)
Definition XLogFileName (XLOG_SEG_SIZE tli logSegNo : Z) : string :=
  hex08 tli +++
  hex08 (logSegNo / XLogSegmentsPerXLogId XLOG_SEG_SIZE) +++
  hex08 (logSegNo mod XLogSegmentsPerXLogId XLOG_SEG_SIZE).

(** ** Effects: the tuplestore and [ereport] *)

Inductive outcome (A : Type) : Type :=
| Returned (a : A)          (* the code ran to its end *)
| Raised (e : wal_error)    (* ereport(ERROR, ...) *)
| NullDereference           (* a NULL pointer was dereferenced *)
| OutOfFuel.                (* the loop was still running *)

Arguments Returned {A} a.
Arguments Raised {A} e.
Arguments NullDereference {A}.
Arguments OutOfFuel {A}.

(** A computation takes the rows stored so far and gives the rows stored
    when it stops, with how it stopped. *)
Definition M (A : Type) : Type := list string -> list string * outcome A.

Definition ret {A} (a : A) : M A := fun rows => (rows, Returned a).

Definition bind {A B} (m : M A) (k : A -> M B) : M B :=
  fun rows =>
    match m rows with
    | (rows', Returned a) => k a rows'
    | (rows', Raised e) => (rows', Raised e)
    | (rows', NullDereference) => (rows', NullDereference)
    | (rows', OutOfFuel) => (rows', OutOfFuel)
    end.

Notation "x <- m ;; k" := (bind m (fun x => k))
  (at level 61, m at next level, right associativity).
Notation "m ;;; k" := (bind m (fun _ => k))
  (at level 61, right associativity).

Definition ereport {A} (e : wal_error) : M A := fun rows => (rows, Raised e).
Definition null_dereference {A} : M A := fun rows => (rows, NullDereference).
Definition out_of_fuel {A} : M A := fun rows => (rows, OutOfFuel).

(** [tuplestore_putvalues] with one text column. *)
Definition tuplestore_putvalues (xlogfname : string) : M unit :=
  fun rows => (rows ++ [xlogfname], Returned tt).

Definition check (failed : bool) (e : wal_error) : M unit :=
  if failed then ereport e else ret tt.

(** An error of the parser propagates through the caller. *)
Definition lift {A} (r : wal_error + A) : M A :=
  match r with
  | inl e => ereport e
  | inr a => ret a
  end.

(** [llast(entries)] is [lfirst(list_tail(entries))]: on [NIL] the tail
    cell is NULL and reading its value dereferences it. *)
Definition llast (entries : list TimeLineHistoryEntry) : M TimeLineHistoryEntry :=
  match rev entries with
  | [] => null_dereference
  | history :: _ => ret history
  end.

(** ** build_wal_segment_list *)

Section Build.

Variable XLOG_SEG_SIZE : Z.

(** The test of lines 317-319. *)
Definition is_origin (origin_tli origin_lsn : Z)
    (history : TimeLineHistoryEntry) : bool :=
  (begin history <=? origin_lsn) && (origin_lsn <=? end_ history) &&
  (tli history =? origin_tli).

(** Lines 313-329: the first entry that passes the test stays in
    [history]; without one the call fails. *)
Definition find_origin (origin_tli origin_lsn : Z)
    (entries : list TimeLineHistoryEntry) : M TimeLineHistoryEntry :=
  match find (is_origin origin_tli origin_lsn) entries with
  | Some history => ret history
  | None => ereport OriginNotDirectParent
  end.

(** The loop condition of lines 363-364. *)
Definition covers (current_seg_lsn : Z) (history : TimeLineHistoryEntry)
  : bool :=
  (begin history <=? current_seg_lsn) && (current_seg_lsn <? end_ history).

(** Lines 363-378: the [while] loop for one entry; it returns the
    cursor it stops at.  [fuel] bounds the number of times the condition
    is tested. *)
Fixpoint emit_segments (fuel : nat) (history : TimeLineHistoryEntry)
    (current_seg_lsn : Z) : M Z :=
  match fuel with
  | O => out_of_fuel
  | S fuel' =>
      if covers current_seg_lsn history
      then
        let logSegNo := XLByteToPrevSeg XLOG_SEG_SIZE current_seg_lsn in
        tuplestore_putvalues
          (XLogFileName XLOG_SEG_SIZE (tli history) logSegNo) ;;;
        emit_segments fuel' history
          (next_segment_start XLOG_SEG_SIZE current_seg_lsn)
      else ret current_seg_lsn
  end.

(** Lines 337-340: the entry made of the target data. *)
Definition target_entry (target_tli target_lsn : Z)
    (history : TimeLineHistoryEntry) : TimeLineHistoryEntry :=
  {| tli := target_tli; begin := end_ history; end_ := target_lsn |}.

(** Lines 356-379: the [foreach] over the entries. *)
Fixpoint walk_entries (fuel : nat) (entries : list TimeLineHistoryEntry)
    (current_seg_lsn : Z) : M Z :=
  match entries with
  | [] => ret current_seg_lsn
  | history :: rest =>
      lsn <- emit_segments fuel history current_seg_lsn ;;
      walk_entries fuel rest lsn
  end.

Definition build_wal_segment_list (fuel : nat)
    (origin_tli origin_lsn target_tli target_lsn : Z)
    (history_buf : string) : M unit :=
  (* lines 272-284 *)
  check (target_lsn <? origin_lsn)
        (OriginNewerThanTarget origin_lsn target_lsn) ;;;
  check (target_tli <? origin_tli)
        (OriginTimelineNewerThanTarget origin_tli target_tli) ;;;
  (* line 287 *)
  entries <- lift (parseTimeLineHistory history_buf) ;;
  (* lines 293-307 *)
  history <- llast entries ;;
  check (target_tli <=? tli history)
        (HistoryTimelineNotOlderThanTarget (tli history) target_tli) ;;;
  check (target_lsn <? end_ history)
        (HistoryEndNewerThanTarget (end_ history) target_lsn) ;;;
  (* lines 313-329 *)
  history <- find_origin origin_tli origin_lsn entries ;;
  (* lines 335-341: [history] is the entry the search stopped at *)
  let entries := entries ++ [target_entry target_tli target_lsn history] in
  (* lines 352-379 *)
  _ <- walk_entries fuel entries
         (next_segment_start XLOG_SEG_SIZE origin_lsn) ;;
  (* lines 385-389 *)
  tuplestore_putvalues
    (XLogFileName XLOG_SEG_SIZE target_tli
       (XLByteToPrevSeg XLOG_SEG_SIZE target_lsn)).

End Build.

(** A call starts with an empty tuplestore. *)
Definition run {A} (m : M A) : list string * outcome A := m [].

(** ** The calling context and parse_wal_history

    [parse_wal_history] first copies its argument into a C string (line
    133), which takes nothing from the caller but memory, and then tests
    [fcinfo->resultinfo] (lines 142-151): it must be a [ReturnSetInfo]
    node, and its [allowedModes] must contain [SFRM_Materialize] (0x02
    in [nodes/execnodes.h]).  A NULL pointer and a node of another type
    are both [None] here. *)

Record ReturnSetInfo : Type := mkReturnSetInfo { allowedModes : Z }.

Definition SFRM_Materialize : Z := 2.

Inductive call_error : Type :=
| SetNotAccepted            (* line 144 *)
| MaterializeNotAllowed     (* line 148 *)
| NotARowType               (* line 158 *)
| Reported (e : wal_error). (* an error of the code that follows *)

Definition check_context (rsinfo : option ReturnSetInfo) : option call_error :=
  match rsinfo with
  | None => Some SetNotAccepted
  | Some info =>
      if Z.land (allowedModes info) SFRM_Materialize =? 0
      then Some MaterializeNotAllowed
      else None
  end.

(** [Int32GetDatum] applied to a [TimeLineID]: the [uint32] is read as an
    [int32]. *)
Definition Int32GetDatum (x : Z) : Z :=
  if wrap32 x <? 2 ^ 31 then wrap32 x else wrap32 x - 2 ^ 32.

Definition XLogRecPtrIsInvalid (r : Z) : bool := r =? InvalidXLogRecPtr.

(** A row of [parse_wal_history]: [values] and [nulls] of lines 172-193,
    a NULL column being [None]. *)
Record history_row : Type := mkRow {
  timeline_col : Z;
  begin_col : option Z;
  end_col : option Z
}.

(** Lines 176-193. *)
Definition row_of_entry (history : TimeLineHistoryEntry) : history_row :=
  {| timeline_col := Int32GetDatum (tli history);
     begin_col := if XLogRecPtrIsInvalid (begin history) then None
                  else Some (begin history);
     end_col := if XLogRecPtrIsInvalid (end_ history) then None
                else Some (end_ history) |}.

(** Lines 130-202.  [composite] tells whether [get_call_result_type]
    answers [TYPEFUNC_COMPOSITE]; the rows are stored after the whole
    text has been parsed. *)
Definition parse_wal_history (rsinfo : option ReturnSetInfo)
    (composite : bool) (history_buf : string)
  : call_error + list history_row :=
  match check_context rsinfo with
  | Some e => inl e
  | None =>
      if negb composite then inl NotARowType
      else
        match parseTimeLineHistory history_buf with
        | inl e => inl (Reported e)
        | inr entries => inr (map row_of_entry entries)
        end
  end.

(** * Vocabulary of the statements *)

(** The lines that are not skipped, in order. *)
Definition data_lines (buffer : string) : list string :=
  filter (fun fline => negb (is_comment fline)) (split_lines buffer).

(** Timeline IDs grow strictly, starting above [prev]. *)
Fixpoint increasing_from (prev : Z) (tlis : list Z) : Prop :=
  match tlis with
  | [] => True
  | t :: rest => prev < t /\ increasing_from t rest
  end.

(** Every entry begins where the one before it ends, the first at [prev]. *)
Fixpoint chained (prev : Z) (entries : list TimeLineHistoryEntry) : Prop :=
  match entries with
  | [] => True
  | e :: rest => begin e = prev /\ chained (end_ e) rest
  end.

(** The entry [e] holds what [sscanf] read on [fline]. *)
Definition scanned_from (fline : string) (e : TimeLineHistoryEntry) : Prop :=
  exists t switchpoint_hi switchpoint_lo,
    sscanf fline = ThreeFields t switchpoint_hi switchpoint_lo /\
    tli e = t /\
    end_ e = Z.lor (Z.shiftl switchpoint_hi 32) switchpoint_lo.

(** The identifier as the specification words it: the timeline, the high
    32 bits and the low 32 bits of the segment number, eight hexadecimal
    digits each. *)
Definition format_identifier (timeline seg_seq : Z) : string :=
  hex08 timeline +++ hex08 (Z.shiftr seg_seq 32) +++
  hex08 (Z.land seg_seq (2 ^ 32 - 1)).

(** The order of two pairs, first component first. *)
Definition compare_pair (a1 b1 a2 b2 : Z) : comparison :=
  match a1 ?= a2 with
  | Eq => b1 ?= b2
  | c => c
  end.

(** A row, before it is printed: timeline and segment number. *)
Definition name_of (seg : Z) (p : Z * Z) : string :=
  XLogFileName seg (fst p) (snd p).

(** The number of the last segment of the 64-bit range. *)
Definition last_segment (seg : Z) : Z := 2 ^ 64 / seg - 1.

(** Two rows, the first stored before the second: the timeline grows,
    or it is the same and the segment number does not go down; but a row
    that names the last segment goes before lower numbers only. *)
Definition in_order (seg : Z) (p q : Z * Z) : Prop :=
  fst p < fst q \/
  (fst p = fst q /\
   ((snd p < last_segment seg /\ snd p <= snd q) \/
    (snd p = last_segment seg /\ snd q < last_segment seg))).

(** Reading a name back: the value of a string of hexadecimal digits,
    the timeline in the first eight characters of a name, and the segment
    number in the sixteen that follow. *)
Fixpoint hex_value (s : string) (acc : Z) : Z :=
  match s with
  | EmptyString => acc
  | String c rest =>
      hex_value rest
        (acc * 16 + match digit_value 16 c with Some d => d | None => 0 end)
  end.

Definition name_timeline (name : string) : Z :=
  hex_value (substring 0 8 name) 0.

Definition name_segment (seg : Z) (name : string) : Z :=
  hex_value (substring 8 8 name) 0 * XLogSegmentsPerXLogId seg +
  hex_value (substring 16 8 name) 0.

(** ** The text of a data line

    What the three conversions of line 84 take from a line, said on the
    text itself: white space, an optional sign and the longest numeral
    that follows.  Nothing here refers to the model of [sscanf]. *)















(** ** Inputs used as examples *)

(** The history of timeline 2: timeline 1 ended at 0/3000000. *)
Definition history_of_2 : string := "1" +++ TAB +++ "0/3000000" +++ LF.

(** The text of the second example: timelines 1 and 2. *)
Definition history_of_3 : string :=
  "1" +++ TAB +++ "0/3000000" +++ LF +++ "2" +++ TAB +++ "0/5000000" +++ LF.

Definition decreasing_history : string :=
  "2" +++ TAB +++ "0/0" +++ LF +++ "1" +++ TAB +++ "0/0" +++ LF.

Definition MB16 : Z := 16777216.

(** What the call from (1, 0/0) to (2, 0/5000000) with [history_of_2]
    stores. *)
Definition rows_1_to_2 : list string :=
  ["000000010000000000000000"; "000000010000000000000001";
   "000000020000000000000002"; "000000020000000000000003";
   "000000020000000000000004"].

(** A history whose timeline 1 ended at 1/0, 4 GB into the log. *)
Definition history_4GB : string := "1" +++ TAB +++ "1/0" +++ LF.

(** A history that reaches the end of the 64-bit range on timeline 2
    and starts again from 0/0 on timeline 4. *)
Definition history_with_wrap : string :=
  "1" +++ TAB +++ "FFFFFFFF/FD000000" +++ LF +++
  "2" +++ TAB +++ "FFFFFFFF/FFFFFFFF" +++ LF +++
  "3" +++ TAB +++ "0/0" +++ LF +++
  "4" +++ TAB +++ "0/2000000" +++ LF.

(** ** Vocabulary of the further properties *)

(** A text without NUL character, and a line: a text without NUL and
    without newline. *)
Fixpoint no_nul (s : string) : bool :=
  match s with
  | EmptyString => true
  | String c rest => negb (is_nul c) && no_nul rest
  end.

Fixpoint one_line (s : string) : bool :=
  match s with
  | EmptyString => true
  | String c rest => negb (is_nul c) && negb (is_newline c) && one_line rest
  end.

(** What the reader of a row of [parse_wal_history] gets back: the
    timeline as a [uint32], and 0/0 for a NULL. *)
Definition entry_of_row (r : history_row) : TimeLineHistoryEntry :=
  {| tli := wrap32 (timeline_col r);
     begin := match begin_col r with Some p => p | None => InvalidXLogRecPtr end;
     end_ := match end_col r with Some p => p | None => InvalidXLogRecPtr end |}.

(** Pairs in strict order. *)
Definition pair_lt (p q : Z * Z) : Prop :=
  fst p < fst q \/ (fst p = fst q /\ snd p < snd q).

(** The checks of lines 272-329 all pass. *)
Definition valid_call (origin_tli origin_lsn target_tli target_lsn : Z)
    (entries : list TimeLineHistoryEntry) : Prop :=
  origin_lsn <= target_lsn /\ origin_tli <= target_tli /\
  exists last origin,
    hd_error (rev entries) = Some last /\
    tli last < target_tli /\ end_ last <= target_lsn /\
    find (is_origin origin_tli origin_lsn) entries = Some origin.

(** * Properties of the parser *)

Lemma parse_line_parsed lasttli prevend fline e :
  parse_line lasttli prevend fline = Parsed e ->
  is_comment fline = false /\ lasttli < tli e /\ begin e = prevend /\
  scanned_from fline e.
Proof.
  unfold parse_line.
  destruct (is_comment fline); [discriminate|].
  destruct (sscanf fline) as [|t|t hi|t hi lo] eqn:Hscan; simpl;
    try discriminate.
  destruct (t <=? lasttli) eqn:Hle; [discriminate|].
  intros [= <-]; simpl. apply Z.leb_gt in Hle.
  repeat split; trivial. now exists t, hi, lo.
Qed.

Lemma parse_line_skipped lasttli prevend fline :
  parse_line lasttli prevend fline = Skipped <-> is_comment fline = true.
Proof.
  unfold parse_line. destruct (is_comment fline); [tauto|].
  split; [|discriminate].
  destruct (sscanf fline); simpl; try discriminate.
  destruct (_ <=? _); discriminate.
Qed.

Lemma parse_lines_inv lines : forall lasttli prevend acc entries,
  parse_lines lines lasttli prevend acc = inr entries ->
  exists new,
    entries = acc ++ new /\
    increasing_from lasttli (map tli new) /\
    chained prevend new /\
    Forall2 scanned_from
      (filter (fun fline => negb (is_comment fline)) lines) new.
Proof.
  induction lines as [|fline rest IH]; simpl; intros lasttli prevend acc entries H.
  - injection H as <-. exists []. rewrite app_nil_r. simpl. auto.
  - destruct (parse_line lasttli prevend fline) as [| |e] eqn:Hline;
      [|discriminate|].
    + apply parse_line_skipped in Hline. rewrite Hline. simpl.
      now apply IH.
    + apply parse_line_parsed in Hline as (Hc & Hlt & Hb & Hs).
      rewrite Hc. simpl.
      apply IH in H as (new & -> & Hinc & Hch & Hall).
      exists (e :: new). rewrite <- app_assoc. simpl. auto.
Qed.

Lemma increasing_from_In tlis : forall prev t,
  increasing_from prev tlis -> In t tlis -> prev < t.
Proof.
  induction tlis as [|t0 rest IH]; simpl; intros prev t H Hin; [contradiction|].
  destruct H as [Hp Hinc]. destruct Hin as [<- | Hin]; trivial.
  specialize (IH _ _ Hinc Hin). lia.
Qed.

Lemma increasing_from_nth tlis : forall prev i j a b,
  increasing_from prev tlis ->
  nth_error tlis i = Some a -> nth_error tlis j = Some b ->
  (i < j)%nat -> prev < a /\ a < b.
Proof.
  induction tlis as [|t rest IH]; intros prev i j a b H Hi Hj Hij.
  - destruct i; discriminate.
  - destruct H as [Hp Hinc].
    destruct j as [|j]; [lia|]. simpl in Hj.
    destruct i as [|i]; simpl in Hi.
    + injection Hi as <-. split; trivial.
      apply (increasing_from_In rest); trivial.
      eapply nth_error_In; eauto.
    + destruct (IH t i j a b) as [? ?]; auto; lia.
Qed.

Lemma chained_nth entries : forall prev i a b,
  chained prev entries ->
  nth_error entries i = Some a -> nth_error entries (S i) = Some b ->
  begin b = end_ a.
Proof.
  induction entries as [|e rest IH]; intros prev i a b H Hi Hj.
  - destruct i; discriminate.
  - destruct H as [Hb Hch]. destruct i as [|i]; simpl in Hi, Hj.
    + injection Hi as <-. destruct rest as [|e' rest']; [discriminate|].
      injection Hj as <-. apply Hch.
    + eapply IH; eauto.
Qed.

(** A blank last line changes nothing. *)
Lemma parse_lines_blank lines : forall lasttli prevend acc,
  parse_lines (lines ++ [EmptyString]) lasttli prevend acc =
  parse_lines lines lasttli prevend acc.
Proof.
  induction lines as [|fline rest IH]; simpl; intros; [reflexivity|].
  destruct (parse_line lasttli prevend fline); auto.
Qed.

Lemma split_lines_not_nil buffer : split_lines buffer <> [].
Proof.
  destruct buffer as [|c rest]; simpl; [discriminate|].
  destruct (is_nul c); [discriminate|].
  destruct (is_newline c); [discriminate|].
  destruct (split_lines rest); discriminate.
Qed.

Lemma split_lines_newline buffer :
  split_lines (buffer +++ LF) = split_lines buffer ++ [EmptyString] \/
  split_lines (buffer +++ LF) = split_lines buffer.
Proof.
  induction buffer as [|c rest IH]; simpl.
  - left. reflexivity.
  - destruct (is_nul c); [now right|].
    destruct (is_newline c).
    + destruct IH as [-> | ->]; [left | right]; reflexivity.
    + destruct IH as [-> | ->]; [left | right]; trivial.
      pose proof (split_lines_not_nil rest).
      destruct (split_lines rest); [congruence | reflexivity].
Qed.

(** The first and the fifth example of the specification. *)
Example parse_single_line :
  parseTimeLineHistory ("1" +++ TAB +++ "0/0" +++ LF) =
    inr [mkEntry 1 InvalidXLogRecPtr 0].
Proof. reflexivity. Qed.

Example parse_without_timeline :
  parseTimeLineHistory ("abc" +++ TAB +++ "0/0") =
    inl (MissingTimelineId ("abc" +++ TAB +++ "0/0")).
Proof. reflexivity. Qed.

(** * Properties of the enumeration *)

Tactic Notation "run_bind" hyp(H) "as" ident(r) ident(a) ident(E) :=
  match type of H with
  | context [bind ?m ?k ?rows] =>
      unfold bind at 1 in H;
      let o := fresh "o" in
      destruct (m rows) as [r o] eqn:E;
      destruct o as [a|?| |]; try discriminate H
  end.

Section BuildFacts.

Variable seg : Z.

(** The loop only appends rows, and stops by leaving or by running out
    of fuel. *)
Lemma emit_segments_rows fuel h : forall lsn rows rows' o,
  emit_segments seg fuel h lsn rows = (rows', o) ->
  (exists more, rows' = rows ++ more) /\
  ((exists lsn', o = Returned lsn') \/ o = OutOfFuel).
Proof.
  induction fuel as [|fuel IH]; simpl; intros lsn rows rows' o H.
  - injection H as <- <-. split; [exists []; now rewrite app_nil_r | now right].
  - destruct (covers lsn h).
    + unfold bind, tuplestore_putvalues in H.
      apply IH in H as [[more ->] Ho]. split; trivial.
      eexists. now rewrite <- app_assoc.
    + injection H as <- <-. split; [exists []; now rewrite app_nil_r|].
      left. now eexists.
Qed.

Lemma walk_entries_rows fuel entries : forall lsn rows rows' o,
  walk_entries seg fuel entries lsn rows = (rows', o) ->
  (exists more, rows' = rows ++ more) /\
  ((exists lsn', o = Returned lsn') \/ o = OutOfFuel).
Proof.
  induction entries as [|h rest IH]; simpl; intros lsn rows rows' o H.
  - injection H as <- <-. split; [exists []; now rewrite app_nil_r|].
    left. now eexists.
  - unfold bind in H.
    destruct (emit_segments seg fuel h lsn rows) as [rows1 o1] eqn:E.
    apply emit_segments_rows in E as [[more1 ->] Ho1].
    destruct o1 as [lsn1|e| |].
    + apply IH in H as [[more ->] Ho]. split; trivial.
      eexists. now rewrite <- app_assoc.
    + destruct Ho1 as [[? ?]|?]; discriminate.
    + destruct Ho1 as [[? ?]|?]; discriminate.
    + injection H as <- <-. split; [now eexists | now right].
Qed.

(** What a call that returns went through. *)
Lemma build_returned fuel origin_tli origin_lsn target_tli target_lsn
    history_buf rows :
  run (build_wal_segment_list seg fuel origin_tli origin_lsn
         target_tli target_lsn history_buf) = (rows, Returned tt) ->
  exists entries last origin loop_rows lsn,
    origin_lsn <= target_lsn /\ origin_tli <= target_tli /\
    parseTimeLineHistory history_buf = inr entries /\
    hd_error (rev entries) = Some last /\
    tli last < target_tli /\ end_ last <= target_lsn /\
    find (is_origin origin_tli origin_lsn) entries = Some origin /\
    walk_entries seg fuel
      (entries ++ [target_entry target_tli target_lsn origin])
      (next_segment_start seg origin_lsn) [] = (loop_rows, Returned lsn) /\
    rows = loop_rows ++
           [XLogFileName seg target_tli (XLByteToPrevSeg seg target_lsn)].
Proof.
  unfold run, build_wal_segment_list. intros H.
  run_bind H as r1 u1 E. unfold check, ereport, ret in E.
  destruct (target_lsn <? origin_lsn) eqn:C1; [discriminate|].
  injection E as <- _.
  run_bind H as r2 u2 E. unfold check, ereport, ret in E.
  destruct (target_tli <? origin_tli) eqn:C2; [discriminate|].
  injection E as <- _.
  run_bind H as r3 entries E. unfold lift, ereport, ret in E.
  destruct (parseTimeLineHistory history_buf) as [e|entries'] eqn:P;
    [discriminate|]. injection E as <- <-.
  run_bind H as r4 last E. unfold llast, null_dereference, ret in E.
  destruct (rev entries') as [|last' tl] eqn:R; [discriminate|].
  injection E as <- <-.
  run_bind H as r5 u5 E. unfold check, ereport, ret in E.
  destruct (target_tli <=? tli last') eqn:C3; [discriminate|].
  injection E as <- _.
  run_bind H as r6 u6 E. unfold check, ereport, ret in E.
  destruct (target_lsn <? end_ last') eqn:C4; [discriminate|].
  injection E as <- _.
  run_bind H as r7 origin E. unfold find_origin, ereport, ret in E.
  destruct (find (is_origin origin_tli origin_lsn) entries') as [origin'|]
    eqn:F; [|discriminate]. injection E as <- <-.
  run_bind H as loop_rows lsn E.
  unfold tuplestore_putvalues in H. injection H as <-.
  exists entries', last', origin', loop_rows, lsn.
  apply Z.ltb_ge in C1, C2, C4. apply Z.leb_gt in C3.
  rewrite R. repeat split; trivial.
Qed.

(** The third example of the specification: an origin position above
    the target is refused first, whatever the timelines and the history. *)
Lemma origin_newer_than_target fuel origin_tli origin_lsn target_tli
    target_lsn history_buf :
  target_lsn < origin_lsn ->
  run (build_wal_segment_list seg fuel origin_tli origin_lsn
         target_tli target_lsn history_buf) =
    ([], Raised (OriginNewerThanTarget origin_lsn target_lsn)).
Proof.
  intros H. apply Z.ltb_lt in H.
  unfold run, build_wal_segment_list, bind, check. now rewrite H.
Qed.

(** What a call that does not return has stored. *)
Lemma build_not_returned fuel origin_tli origin_lsn target_tli target_lsn
    history_buf rows o :
  run (build_wal_segment_list seg fuel origin_tli origin_lsn
         target_tli target_lsn history_buf) = (rows, o) ->
  match o with
  | Returned _ => True
  | Raised _ | NullDereference => rows = []
  | OutOfFuel => True
  end.
Proof.
  unfold run, build_wal_segment_list. intros H.
  unfold bind at 1 in H. unfold check at 1 in H. unfold ereport, ret in H.
  destruct (target_lsn <? origin_lsn); [now injection H as <- <-|].
  unfold bind at 1 in H. unfold check at 1 in H. unfold ereport, ret in H.
  destruct (target_tli <? origin_tli); [now injection H as <- <-|].
  unfold bind at 1 in H. unfold lift, ereport, ret in H.
  destruct (parseTimeLineHistory history_buf) as [e|entries];
    [now injection H as <- <-|].
  unfold bind at 1 in H. unfold llast, null_dereference, ret in H.
  destruct (rev entries) as [|last tl]; [now injection H as <- <-|].
  unfold bind at 1 in H. unfold check at 1 in H. unfold ereport, ret in H.
  destruct (target_tli <=? tli last); [now injection H as <- <-|].
  unfold bind at 1 in H. unfold check at 1 in H. unfold ereport, ret in H.
  destruct (target_lsn <? end_ last); [now injection H as <- <-|].
  unfold bind at 1 in H. unfold find_origin, ereport, ret in H.
  destruct (find (is_origin origin_tli origin_lsn) entries) as [origin|];
    [|now injection H as <- <-].
  unfold bind at 1 in H.
  match type of H with
  | context [walk_entries ?s ?f ?es ?c ?r] =>
      destruct (walk_entries s f es c r) as [rows1 o1] eqn:W
  end.
  apply walk_entries_rows in W as [_ Ho1].
  destruct o1 as [lsn1|e| |].
  - unfold tuplestore_putvalues in H. now injection H as <- <-.
  - destruct Ho1 as [[? ?]|?]; discriminate.
  - destruct Ho1 as [[? ?]|?]; discriminate.
  - now injection H as <- <-.
Qed.

End BuildFacts.

(** ** Segment arithmetic *)

Section Arithmetic.

Variable seg : Z.
Hypothesis seg_pos : 0 < seg.

Lemma next_segment_start_aligned lsn :
  next_segment_start seg lsn mod seg = 0.
Proof.
  unfold next_segment_start.
  set (x := wrap64 (lsn + seg)).
  rewrite Zminus_mod, Z.mod_mod, Z.sub_diag by lia.
  now apply Z.mod_0_l; lia.
Qed.

Lemma next_segment_start_no_wrap lsn :
  0 <= lsn -> lsn + seg < 2 ^ 64 ->
  next_segment_start seg lsn = seg * (lsn / seg + 1).
Proof.
  intros H0 H1. unfold next_segment_start, wrap64.
  rewrite Z.mod_small by lia.
  replace (lsn + seg) with (lsn + 1 * seg) at 2 by lia.
  rewrite Z.mod_add by lia.
  pose proof (Z.div_mod lsn seg ltac:(lia)). lia.
Qed.

Lemma XLByteToPrevSeg_boundary q :
  0 < q -> seg * q <= 2 ^ 64 ->
  XLByteToPrevSeg seg (seg * q) = q - 1.
Proof.
  intros Hq Hle. unfold XLByteToPrevSeg, wrap64.
  rewrite Z.mod_small by nia.
  symmetry. apply (Z.div_unique _ _ _ (seg - 1)); nia.
Qed.

(** The segment named at the first boundary after [lsn] is the one that
    holds [lsn]; this survives the wrap-around at 2^64. *)
Lemma XLByteToPrevSeg_next_segment_start lsn :
  (seg | 2 ^ 64) -> 0 <= lsn < 2 ^ 64 ->
  XLByteToPrevSeg seg (next_segment_start seg lsn) = lsn / seg.
Proof.
  intros [k Hk] Hlsn.
  assert (Hk1 : 0 < k) by nia.
  assert (Hseg : seg <= 2 ^ 64) by nia.
  destruct (Z_lt_ge_dec (lsn + seg) (2 ^ 64)) as [Hs|Hs].
  - rewrite next_segment_start_no_wrap by lia.
    pose proof (Z.div_mod lsn seg ltac:(lia)).
    pose proof (Z.mod_pos_bound lsn seg seg_pos).
    rewrite XLByteToPrevSeg_boundary; nia.
  - unfold next_segment_start, XLByteToPrevSeg, wrap64.
    assert (Hx : (lsn + seg) mod 2 ^ 64 = lsn + seg - 2 ^ 64).
    { symmetry. apply (Z.mod_unique _ _ 1); lia. }
    rewrite Hx. rewrite (Z.mod_small (lsn + seg - 2 ^ 64)) by lia.
    rewrite Z.sub_diag. simpl (0 - 1).
    assert (Hm : -1 mod 2 ^ 64 = 2 ^ 64 - 1) by reflexivity.
    rewrite Hm.
    transitivity (k - 1).
    + symmetry. apply (Z.div_unique _ _ _ (seg - 1)); nia.
    + apply (Z.div_unique _ _ _ (lsn - seg * (k - 1))); nia.
Qed.

Lemma XLByteToPrevSeg_inside lsn :
  0 <= lsn < 2 ^ 64 -> lsn mod seg <> 0 ->
  XLByteToPrevSeg seg lsn = lsn / seg.
Proof.
  intros Hlsn Hm. unfold XLByteToPrevSeg, wrap64.
  assert (lsn <> 0) by (intros ->; apply Hm, Z.mod_0_l; lia).
  pose proof (Z.div_mod lsn seg ltac:(lia)).
  pose proof (Z.mod_pos_bound lsn seg seg_pos).
  rewrite Z.mod_small by lia.
  symmetry. apply (Z.div_unique _ _ _ (lsn mod seg - 1)); lia.
Qed.

Lemma XLByteToPrevSeg_on_boundary lsn :
  0 < lsn < 2 ^ 64 -> lsn mod seg = 0 ->
  XLByteToPrevSeg seg lsn = lsn / seg - 1.
Proof.
  intros Hlsn Hm. unfold XLByteToPrevSeg, wrap64.
  pose proof (Z.div_mod lsn seg ltac:(lia)).
  rewrite Z.mod_small by lia.
  symmetry. apply (Z.div_unique _ _ _ (seg - 1)); nia.
Qed.

End Arithmetic.

(** ** The first row of the loop *)

Section FirstRow.

Variable seg : Z.

Lemma emit_segments_first fuel h lsn rows rows' lsn' :
  emit_segments seg fuel h lsn rows = (rows', Returned lsn') ->
  if covers lsn h
  then exists more,
      rows' = rows ++
              XLogFileName seg (tli h) (XLByteToPrevSeg seg lsn) :: more
  else rows' = rows /\ lsn' = lsn.
Proof.
  destruct fuel as [|fuel]; simpl; [discriminate|].
  destruct (covers lsn h).
  - unfold bind, tuplestore_putvalues. intros H.
    apply emit_segments_rows in H as [[more ->] _].
    exists more. now rewrite <- app_assoc.
  - now intros [= <- <-].
Qed.

Lemma walk_entries_first fuel entries : forall lsn rows rows' lsn',
  walk_entries seg fuel entries lsn rows = (rows', Returned lsn') ->
  match find (covers lsn) entries with
  | Some h => exists more,
      rows' = rows ++
              XLogFileName seg (tli h) (XLByteToPrevSeg seg lsn) :: more
  | None => rows' = rows /\ lsn' = lsn
  end.
Proof.
  induction entries as [|h rest IH]; simpl; intros lsn rows rows' lsn' H.
  - now injection H as <- <-.
  - run_bind H as rows1 lsn1 E.
    apply emit_segments_first in E.
    destruct (covers lsn h).
    + destruct E as [more ->].
      apply walk_entries_rows in H as [[more' ->] _].
      eexists. now rewrite <- app_assoc.
    + destruct E as [-> ->]. now apply IH.
Qed.

End FirstRow.

(** * The claims *)

(** ** Parser *)

(** C6: on success the timeline IDs grow strictly, the first entry begins
    at the invalid position 0, every later entry begins where the one
    before it ends, and every entry holds the timeline and the position
    [(hi << 32) | lo] that [sscanf] read on its line. *)
Theorem parsed_history_is_a_chain buffer entries :
  parseTimeLineHistory buffer = inr entries ->
  (forall i j a b,
      nth_error entries i = Some a -> nth_error entries j = Some b ->
      (i < j)%nat -> tli a < tli b) /\
  (forall e, hd_error entries = Some e -> begin e = InvalidXLogRecPtr) /\
  (forall i a b,
      nth_error entries i = Some a -> nth_error entries (S i) = Some b ->
      begin b = end_ a) /\
  Forall2 scanned_from (data_lines buffer) entries.
Proof.
  unfold parseTimeLineHistory. intros H.
  apply parse_lines_inv in H as (new & -> & Hinc & Hch & Hall).
  simpl. repeat split.
  - intros i j a b Hi Hj Hij.
    eapply (increasing_from_nth (map tli new) 0 i j); eauto using map_nth_error.
  - intros e He. destruct new as [|e0 rest]; [discriminate|].
    injection He as <-. apply Hch.
  - intros i a b. now apply chained_nth with (prev := InvalidXLogRecPtr).
  - exact Hall.
Qed.

Lemma parsed_history_is_a_chain_witness :
  parseTimeLineHistory history_of_3 =
    inr [mkEntry 1 0 50331648; mkEntry 2 50331648 83886080] /\
  Forall2 scanned_from (data_lines history_of_3)
    [mkEntry 1 0 50331648; mkEntry 2 50331648 83886080].
Proof.
  split; [reflexivity|].
  apply (parsed_history_is_a_chain history_of_3). reflexivity.
Defined.

(** C10: one more newline at the end of the text changes nothing: the
    parser gives the same entries, or the same error. *)
Theorem parse_ignores_trailing_newline buffer :
  parseTimeLineHistory (buffer +++ LF) = parseTimeLineHistory buffer.
Proof.
  unfold parseTimeLineHistory.
  destruct (split_lines_newline buffer) as [-> | ->]; trivial.
  apply parse_lines_blank.
Qed.

(** ** Enumeration *)

(** C9: a call that raises an error (or stops on the NULL dereference)
    has stored no row: every [ereport] comes before the first
    [tuplestore_putvalues]. *)
Theorem error_leaves_no_row seg fuel origin_tli origin_lsn target_tli
    target_lsn history_buf rows o :
  run (build_wal_segment_list seg fuel origin_tli origin_lsn
         target_tli target_lsn history_buf) = (rows, o) ->
  (forall e, o = Raised e -> rows = []) /\
  (o = NullDereference -> rows = []).
Proof.
  intros H. apply build_not_returned in H.
  split; [intros e ->| intros ->]; exact H.
Qed.

Lemma error_leaves_no_row_witness :
  run (build_wal_segment_list MB16 3 1 5 1 4 history_of_2) =
    ([], Raised (OriginNewerThanTarget 5 4)) /\
  (forall e, Raised (A := unit) (OriginNewerThanTarget 5 4) = Raised e ->
             @nil string = []) /\
  (Raised (A := unit) (OriginNewerThanTarget 5 4) = NullDereference ->
   @nil string = []).
Proof.
  split; [reflexivity|].
  apply (error_leaves_no_row MB16 3 1 5 1 4 history_of_2). reflexivity.
Defined.

(** With a history that parses to no entry, and origin and target in
    order, the call reaches [llast] on the empty list. *)
Lemma empty_history_reaches_llast seg fuel origin_tli origin_lsn target_tli
    target_lsn history_buf :
  parseTimeLineHistory history_buf = inr [] ->
  origin_lsn <= target_lsn -> origin_tli <= target_tli ->
  run (build_wal_segment_list seg fuel origin_tli origin_lsn
         target_tli target_lsn history_buf) = ([], NullDereference).
Proof.
  intros P H1 H2. unfold run, build_wal_segment_list, bind, check.
  apply Z.ltb_ge in H1, H2. rewrite H1, H2. simpl. now rewrite P.
Qed.

(** C3: at the empty history text, and at a text made of one comment,
    with origin and target in order, the call takes the last entry of an
    empty list and dereferences NULL; it stores no row and raises no
    validation error. *)
Theorem empty_history_null_dereference :
  run (build_wal_segment_list MB16 1 1 0 2 0 "") = ([], NullDereference) /\
  run (build_wal_segment_list MB16 1 1 0 2 0 ("# no timeline" +++ LF)) =
    ([], NullDereference).
Proof.
  split; apply empty_history_reaches_llast; try reflexivity; lia.
Qed.

(** C4, as stated: the call of the second example does not return a
    list, whatever the fuel. *)
Lemma example2_call_does_not_return :
  ~ exists fuel rows,
      run (build_wal_segment_list MB16 fuel 1 0 2 83886080 history_of_3) =
        (rows, Returned tt).
Proof.
  intros (fuel & rows & H). vm_compute in H. discriminate H.
Qed.

(** C4, amended: the text parses to two entries, and the call fails with
    [HistoryTimelineNotOlderThanTarget] because the last entry of the
    history is on the target timeline 2; nothing is emitted. *)
Theorem example2_parses_and_is_rejected :
  parseTimeLineHistory history_of_3 =
    inr [mkEntry 1 InvalidXLogRecPtr 50331648; mkEntry 2 50331648 83886080] /\
  forall fuel,
    run (build_wal_segment_list MB16 fuel 1 0 2 83886080 history_of_3) =
      ([], Raised (HistoryTimelineNotOlderThanTarget 2 2)).
Proof.
  split; [reflexivity | intros fuel; reflexivity].
Qed.

(** C1, as stated: the origin's own segment is in the list. *)
Lemma origin_segment_is_emitted :
  exists rows,
    run (build_wal_segment_list MB16 3 1 0 2 83886080 history_of_2) =
      (rows, Returned tt) /\
    In (XLogFileName MB16 1 (0 / MB16)) rows.
Proof.
  exists rows_1_to_2. split; [reflexivity|]. left. reflexivity.
Qed.

(** C1, amended: enumeration starts at the first segment boundary
    strictly after [origin_lsn], and the row emitted at a boundary names
    the segment that ends there.  So the first row names the origin's own
    segment number [origin_lsn / seg], on the timeline of the first entry
    whose span holds that boundary; on the origin's timeline this row is
    the origin's identifier.  When no entry holds the boundary the loop
    emits nothing and the final row is the only one. *)
Theorem first_row_is_origin_segment seg fuel origin_tli origin_lsn
    target_tli target_lsn history_buf rows :
  0 < seg -> (seg | 2 ^ 64) -> 0 <= origin_lsn < 2 ^ 64 ->
  run (build_wal_segment_list seg fuel origin_tli origin_lsn
         target_tli target_lsn history_buf) = (rows, Returned tt) ->
  exists entries origin,
    parseTimeLineHistory history_buf = inr entries /\
    find (is_origin origin_tli origin_lsn) entries = Some origin /\
    (origin_lsn + seg < 2 ^ 64 ->
     next_segment_start seg origin_lsn mod seg = 0 /\
     origin_lsn < next_segment_start seg origin_lsn <= origin_lsn + seg) /\
    match find (covers (next_segment_start seg origin_lsn))
               (entries ++ [target_entry target_tli target_lsn origin]) with
    | Some h =>
        hd_error rows = Some (XLogFileName seg (tli h) (origin_lsn / seg)) /\
        (tli h = origin_tli ->
         In (XLogFileName seg origin_tli (origin_lsn / seg)) rows)
    | None =>
        rows = [XLogFileName seg target_tli (XLByteToPrevSeg seg target_lsn)]
    end.
Proof.
  intros Hseg Hdiv Hlsn H.
  apply build_returned in H
    as (entries & last & origin & loop_rows & lsn & _ & _ & P & _ & _ & _ &
        F & W & ->).
  exists entries, origin. do 2 (split; trivial). split.
  { intros Hw. split; [now apply next_segment_start_aligned|].
    rewrite next_segment_start_no_wrap by (trivial; lia).
    pose proof (Z.div_mod origin_lsn seg ltac:(lia)).
    pose proof (Z.mod_pos_bound origin_lsn seg Hseg). lia. }
  apply walk_entries_first in W.
  destruct (find _ (entries ++ _)) as [h|].
  - destruct W as [more ->]. simpl.
    rewrite XLByteToPrevSeg_next_segment_start by trivial.
    split; [reflexivity|]. intros <-. now left.
  - destruct W as [-> _]. reflexivity.
Qed.

Lemma first_row_is_origin_segment_witness :
  0 < MB16 /\ (MB16 | 2 ^ 64) /\ 0 <= 0 < 2 ^ 64 /\
  exists entries origin,
    parseTimeLineHistory history_of_2 = inr entries /\
    find (is_origin 1 0) entries = Some origin /\
    (0 + MB16 < 2 ^ 64 ->
     next_segment_start MB16 0 mod MB16 = 0 /\
     0 < next_segment_start MB16 0 <= 0 + MB16) /\
    match find (covers (next_segment_start MB16 0))
               (entries ++ [target_entry 2 83886080 origin]) with
    | Some h =>
        hd_error rows_1_to_2 =
          Some (XLogFileName MB16 (tli h) (0 / MB16)) /\
        (tli h = 1 ->
         In (XLogFileName MB16 1 (0 / MB16))
            rows_1_to_2)
    | None =>
        rows_1_to_2 =
        [XLogFileName MB16 2 (XLByteToPrevSeg MB16 83886080)]
    end.
Proof.
  assert (Hd : (MB16 | 2 ^ 64)) by (exists (2 ^ 40); reflexivity).
  repeat split; try (unfold MB16; lia); trivial.
  apply (first_row_is_origin_segment MB16 3 1 0 2 83886080 history_of_2);
    trivial; try reflexivity; unfold MB16; lia.
Defined.

(** C2, as stated: with the target on a segment boundary the last row is
    not the name of [target_lsn / seg]; that name is not in the list. *)
Lemma final_row_on_boundary :
  exists rows,
    run (build_wal_segment_list MB16 3 1 0 2 83886080 history_of_2) =
      (rows, Returned tt) /\
    83886080 mod MB16 = 0 /\
    last rows "" = XLogFileName MB16 2 (83886080 / MB16 - 1) /\
    last rows "" <> XLogFileName MB16 2 (83886080 / MB16) /\
    ~ In (XLogFileName MB16 2 (83886080 / MB16)) rows.
Proof.
  exists rows_1_to_2. split; [reflexivity|].
  repeat split; try discriminate.
  vm_compute. intuition discriminate.
Qed.

(** C2, amended: after the loop exactly one row is appended, whatever
    the loop did, and it names the segment of the byte before
    [target_lsn] on the target timeline.  That is [target_lsn / seg] when
    the target is inside a segment, and the segment before it when the
    target is on a boundary. *)
Theorem final_row_is_previous_segment seg fuel origin_tli origin_lsn
    target_tli target_lsn history_buf rows :
  0 < seg -> 0 <= target_lsn < 2 ^ 64 ->
  run (build_wal_segment_list seg fuel origin_tli origin_lsn
         target_tli target_lsn history_buf) = (rows, Returned tt) ->
  exists entries origin loop_rows lsn,
    parseTimeLineHistory history_buf = inr entries /\
    find (is_origin origin_tli origin_lsn) entries = Some origin /\
    walk_entries seg fuel
      (entries ++ [target_entry target_tli target_lsn origin])
      (next_segment_start seg origin_lsn) [] = (loop_rows, Returned lsn) /\
    rows = loop_rows ++
           [XLogFileName seg target_tli (wrap64 (target_lsn - 1) / seg)] /\
    (target_lsn mod seg <> 0 ->
     wrap64 (target_lsn - 1) / seg = target_lsn / seg) /\
    (target_lsn mod seg = 0 -> 0 < target_lsn ->
     wrap64 (target_lsn - 1) / seg = target_lsn / seg - 1).
Proof.
  intros Hseg Hlsn H.
  apply build_returned in H
    as (entries & last & origin & loop_rows & lsn & _ & _ & P & _ & _ & _ &
        F & W & ->).
  exists entries, origin, loop_rows, lsn. repeat split; trivial.
  - intros Hm. now apply XLByteToPrevSeg_inside.
  - intros Hm Hpos. apply XLByteToPrevSeg_on_boundary; trivial. lia.
Qed.

Lemma final_row_is_previous_segment_witness :
  0 < MB16 /\ 0 <= 83886080 < 2 ^ 64 /\
  exists entries origin loop_rows lsn,
    parseTimeLineHistory history_of_2 = inr entries /\
    find (is_origin 1 0) entries = Some origin /\
    walk_entries MB16 3 (entries ++ [target_entry 2 83886080 origin])
      (next_segment_start MB16 0) [] = (loop_rows, Returned lsn) /\
    rows_1_to_2 =
    loop_rows ++ [XLogFileName MB16 2 (wrap64 (83886080 - 1) / MB16)] /\
    (83886080 mod MB16 <> 0 ->
     wrap64 (83886080 - 1) / MB16 = 83886080 / MB16) /\
    (83886080 mod MB16 = 0 -> 0 < 83886080 ->
     wrap64 (83886080 - 1) / MB16 = 83886080 / MB16 - 1).
Proof.
  repeat split; try (unfold MB16; lia).
  apply (final_row_is_previous_segment MB16 3 1 0 2 83886080 history_of_2);
    try reflexivity; unfold MB16; lia.
Defined.

(** ** Segment names *)

Lemma compare_div_mod m a b :
  0 < m -> (a ?= b) = compare_pair (a / m) (a mod m) (b / m) (b mod m).
Proof.
  intros Hm. unfold compare_pair.
  pose proof (Z.div_mod a m ltac:(lia)).
  pose proof (Z.div_mod b m ltac:(lia)).
  pose proof (Z.mod_pos_bound a m Hm).
  pose proof (Z.mod_pos_bound b m Hm).
  destruct (Z.compare_spec (a / m) (b / m)) as [Hq|Hq|Hq].
  - destruct (Z.compare_spec (a mod m) (b mod m)).
    + apply Z.compare_eq_iff. congruence.
    + apply Z.compare_lt_iff. rewrite Hq in *. lia.
    + apply Z.compare_gt_iff. rewrite Hq in *. lia.
  - apply Z.compare_lt_iff. nia.
  - apply Z.compare_gt_iff. nia.
Qed.

Lemma length_append s1 : forall s2,
  String.length (s1 +++ s2) = (String.length s1 + String.length s2)%nat.
Proof.
  induction s1 as [|c s1 IH]; simpl; intros s2; trivial. now rewrite IH.
Qed.

Lemma length_hex n : forall v, String.length (hex n v) = n.
Proof.
  induction n as [|n IH]; simpl; intros v; trivial.
  rewrite length_append, IH. simpl. lia.
Qed.

Lemma compare_append p1 : forall p2 s1 s2,
  String.length p1 = String.length p2 ->
  String.compare (p1 +++ s1) (p2 +++ s2) =
  match String.compare p1 p2 with
  | Eq => String.compare s1 s2
  | c => c
  end.
Proof.
  induction p1 as [|c1 p1 IH]; intros [|c2 p2] s1 s2 Hlen;
    simpl in *; try discriminate; trivial.
  destruct (Ascii.compare c1 c2); trivial. apply IH. lia.
Qed.

Lemma compare_hex_digit d1 d2 :
  0 <= d1 < 16 -> 0 <= d2 < 16 ->
  Ascii.compare (hex_digit d1) (hex_digit d2) = (d1 ?= d2).
Proof.
  intros H1 H2. unfold Ascii.compare, hex_digit.
  rewrite !N_ascii_embedding.
  - rewrite Z2N.inj_compare.
    + destruct (Z.ltb_spec d1 10), (Z.ltb_spec d2 10);
        destruct (Z.compare_spec d1 d2);
        first [apply Z.compare_eq_iff | apply Z.compare_lt_iff
              | apply Z.compare_gt_iff]; lia.
    + destruct (d1 <? 10); lia.
    + destruct (d2 <? 10); lia.
  - destruct (d2 <? 10); lia.
  - destruct (d1 <? 10); lia.
Qed.

(** Fixed-width hexadecimal is ordered as the numbers are. *)
Lemma compare_hex n : forall a b,
  0 <= a < 16 ^ Z.of_nat n -> 0 <= b < 16 ^ Z.of_nat n ->
  String.compare (hex n a) (hex n b) = (a ?= b).
Proof.
  induction n as [|n IH]; intros a b Ha Hb.
  - simpl in *. symmetry. apply Z.compare_eq_iff. lia.
  - rewrite Nat2Z.inj_succ, Z.pow_succ_r in Ha, Hb by lia.
    simpl. rewrite compare_append by now rewrite !length_hex.
    rewrite IH by (split; [apply Z.div_pos | apply Z.div_lt_upper_bound]; lia).
    rewrite (compare_div_mod 16 a b) by lia. unfold compare_pair.
    destruct (a / 16 ?= b / 16); trivial.
    simpl. rewrite compare_hex_digit by (apply Z.mod_pos_bound; lia).
    now destruct (a mod 16 ?= b mod 16).
Qed.

Lemma XLByteToPrevSeg_range seg lsn :
  0 < seg -> (seg | 2 ^ 64) ->
  0 <= XLByteToPrevSeg seg lsn < 2 ^ 64 / seg.
Proof.
  intros Hseg [k Hk]. unfold XLByteToPrevSeg, wrap64.
  pose proof (Z.mod_pos_bound (lsn - 1) (2 ^ 64) ltac:(lia)) as Hb.
  rewrite Hk in *. rewrite Z.div_mul by lia.
  split; [apply Z.div_pos; lia | apply Z.div_lt_upper_bound; lia].
Qed.

(** C8, as stated: the name of segment 256, which the call below emits,
    is not made of the high and low 32 bits of 256. *)
Lemma name_is_not_high_and_low_bits :
  run (build_wal_segment_list MB16 1 1 4294967296 2 4294967297 history_4GB) =
    ([XLogFileName MB16 2 256], Returned tt) /\
  XLogFileName MB16 2 256 = "000000020000000100000000" /\
  format_identifier 2 256 = "000000020000000000000100" /\
  XLogFileName MB16 2 256 <> format_identifier 2 256.
Proof.
  repeat split; discriminate.
Qed.

(** C8, amended: the name is 24 characters, three fields of eight
    hexadecimal digits: the timeline, the segment number divided by
    [XLogSegmentsPerXLogId = 2^32 / seg], and the remainder of that
    division.  These are the high 32 bits of the position where the
    segment starts, and its low 32 bits divided by the segment size; they
    are the high and low 32 bits of the segment number only below
    [XLogSegmentsPerXLogId].  On the segment numbers of 64-bit positions
    the names are ordered as the pairs (timeline, segment number). *)
Theorem segment_name_layout_and_order seg t1 s1 t2 s2 :
  0 < seg -> (seg | 2 ^ 32) ->
  0 <= t1 < 2 ^ 32 -> 0 <= s1 < 2 ^ 64 / seg ->
  0 <= t2 < 2 ^ 32 -> 0 <= s2 < 2 ^ 64 / seg ->
  XLogFileName seg t1 s1 =
    hex 8 t1 +++ hex 8 (s1 / XLogSegmentsPerXLogId seg) +++
    hex 8 (s1 mod XLogSegmentsPerXLogId seg) /\
  String.length (XLogFileName seg t1 s1) = 24%nat /\
  s1 / XLogSegmentsPerXLogId seg = Z.shiftr (s1 * seg) 32 /\
  s1 mod XLogSegmentsPerXLogId seg = Z.land (s1 * seg) (2 ^ 32 - 1) / seg /\
  (s1 < XLogSegmentsPerXLogId seg ->
   XLogFileName seg t1 s1 = format_identifier t1 s1) /\
  String.compare (XLogFileName seg t1 s1) (XLogFileName seg t2 s2) =
    compare_pair t1 s1 t2 s2.
Proof.
  intros Hseg [k Hk] Ht1 Hs1 Ht2 Hs2.
  unfold XLogSegmentsPerXLogId in *.
  change 4294967296 with (2 ^ 32) in *.
  assert (HP : 2 ^ 32 / seg = k) by (rewrite Hk; apply Z.div_mul; lia).
  rewrite HP in *.
  assert (Hk0 : 0 < k) by nia.
  assert (H64 : 2 ^ 64 / seg = 2 ^ 32 * k).
  { change (2 ^ 64) with (2 ^ 32 * 2 ^ 32). rewrite Hk at 2.
    rewrite Z.mul_assoc. apply Z.div_mul. lia. }
  rewrite H64 in *.
  assert (Hfield : forall s, 0 <= s < 2 ^ 32 * k ->
                     0 <= s / k < 2 ^ 32 /\ 0 <= s mod k < 2 ^ 32).
  { intros s Hs. pose proof (Z.mod_pos_bound s k Hk0).
    repeat split; try lia.
    - apply Z.div_pos; lia.
    - apply Z.div_lt_upper_bound; lia.
    - nia. }
  destruct (Hfield s1 Hs1) as [Hh1 Hl1].
  destruct (Hfield s2 Hs2) as [Hh2 Hl2].
  assert (Hname : forall t s, 0 <= t < 2 ^ 32 -> 0 <= s / k < 2 ^ 32 ->
                    0 <= s mod k < 2 ^ 32 ->
                    XLogFileName seg t s =
                    hex 8 t +++ hex 8 (s / k) +++ hex 8 (s mod k)).
  { intros t s Ht Hh Hl. unfold XLogFileName, hex08, wrap32.
    unfold XLogSegmentsPerXLogId. change 4294967296 with (2 ^ 32).
    rewrite HP. now rewrite !Z.mod_small by trivial. }
  assert (Hhigh : s1 / k = Z.shiftr (s1 * seg) 32).
  { rewrite Z.shiftr_div_pow2 by lia. rewrite Hk.
    now rewrite Z.div_mul_cancel_r by lia. }
  assert (Hlow : s1 mod k = Z.land (s1 * seg) (2 ^ 32 - 1) / seg).
  { change (2 ^ 32 - 1) with (Z.ones 32). rewrite Z.land_ones by lia.
    rewrite Hk. rewrite Z.mul_mod_distr_r by lia.
    now rewrite Z.div_mul by lia. }
  split; [now apply Hname|].
  split; [rewrite Hname by trivial; now rewrite !length_append, !length_hex|].
  do 2 (split; trivial). split.
  - intros Hlt. rewrite Hname by trivial.
    unfold format_identifier, hex08, wrap32.
    change (2 ^ 32 - 1) with (Z.ones 32).
    rewrite Z.land_ones, Z.shiftr_div_pow2 by lia.
    assert (s1 < 2 ^ 32) by nia.
    rewrite (Z.div_small s1 k), (Z.mod_small s1 k) by lia.
    rewrite (Z.div_small s1 (2 ^ 32)), (Z.mod_small s1 (2 ^ 32)) by lia.
    now rewrite !Z.mod_small by lia.
  - rewrite !Hname by trivial.
    rewrite !compare_append by now rewrite !length_hex.
    rewrite !compare_hex by (change (16 ^ Z.of_nat 8) with (2 ^ 32); lia).
    unfold compare_pair.
    destruct (t1 ?= t2); trivial.
    now rewrite (compare_div_mod k s1 s2).
Qed.

Lemma segment_name_layout_and_order_witness :
  String.length (XLogFileName MB16 1 255) = 24%nat /\
  String.compare (XLogFileName MB16 1 255) (XLogFileName MB16 1 256) =
    compare_pair 1 255 1 256.
Proof.
  assert (Hd : (MB16 | 2 ^ 32)) by (exists 256; reflexivity).
  assert (H := segment_name_layout_and_order MB16 1 255 1 256
                 ltac:(unfold MB16; lia) Hd
                 ltac:(lia) ltac:(vm_compute; split; [discriminate|reflexivity])
                 ltac:(lia) ltac:(vm_compute; split; [discriminate|reflexivity])).
  split; apply H.
Defined.

(** ** Runs of the loop *)

Section Runs.

Variable seg : Z.
Hypothesis seg_pos : 0 < seg.

Lemma next_segment_start_step lsn :
  lsn mod seg = 0 -> 0 <= lsn -> lsn + seg < 2 ^ 64 ->
  next_segment_start seg lsn = lsn + seg.
Proof.
  intros Ha H0 Hw. rewrite next_segment_start_no_wrap by trivial.
  pose proof (Z.div_mod lsn seg ltac:(lia)). lia.
Qed.

(** From an aligned cursor, [n] turns inside the span of [h] and then a
    cursor outside of it: the loop stores [n] rows and returns. *)
Lemma emit_segments_run h : forall n fuel lsn rows,
  (n < fuel)%nat ->
  lsn mod seg = 0 -> 0 <= lsn -> lsn + Z.of_nat n * seg < 2 ^ 64 ->
  (forall i, (i < n)%nat -> covers (lsn + Z.of_nat i * seg) h = true) ->
  covers (lsn + Z.of_nat n * seg) h = false ->
  emit_segments seg fuel h lsn rows =
    (rows ++
     map (fun i => XLogFileName seg (tli h)
                     (XLByteToPrevSeg seg (lsn + Z.of_nat i * seg)))
         (seq 0 n),
     Returned (lsn + Z.of_nat n * seg)).
Proof.
  induction n as [|n IH]; intros fuel lsn rows Hfuel Ha H0 Hw Hin Hout;
    (destruct fuel as [|fuel]; [lia|]); simpl emit_segments.
  - replace (lsn + Z.of_nat 0 * seg) with lsn in * by lia.
    rewrite Hout. simpl. now rewrite app_nil_r.
  - assert (H1 : covers lsn h = true).
    { specialize (Hin 0%nat ltac:(lia)).
      now replace (lsn + Z.of_nat 0 * seg) with lsn in Hin by lia. }
    rewrite H1. unfold bind, tuplestore_putvalues.
    rewrite next_segment_start_step by (trivial; lia).
    rewrite IH; try lia.
    + rewrite <- app_assoc. f_equal; [|f_equal; lia].
      f_equal. change (seq 0 (S n)) with (0%nat :: seq 1 n).
      rewrite <- seq_shift. cbn [map app]. rewrite map_map.
      f_equal; [do 2 f_equal; lia|].
      apply map_ext. intros i. do 2 f_equal. lia.
    + rewrite <- Zplus_mod_idemp_l, Ha, Z.add_0_l. apply Z.mod_same. lia.
    + intros i Hi. specialize (Hin (S i) ltac:(lia)).
      now replace (lsn + seg + Z.of_nat i * seg)
        with (lsn + Z.of_nat (S i) * seg) by lia.
    + now replace (lsn + seg + Z.of_nat n * seg)
        with (lsn + Z.of_nat (S n) * seg) by lia.
Qed.

(** The converse of [build_returned]. *)
Lemma build_run fuel origin_tli origin_lsn target_tli target_lsn
    history_buf entries last origin loop_rows lsn :
  origin_lsn <= target_lsn -> origin_tli <= target_tli ->
  parseTimeLineHistory history_buf = inr entries ->
  hd_error (rev entries) = Some last ->
  tli last < target_tli -> end_ last <= target_lsn ->
  find (is_origin origin_tli origin_lsn) entries = Some origin ->
  walk_entries seg fuel
    (entries ++ [target_entry target_tli target_lsn origin])
    (next_segment_start seg origin_lsn) [] = (loop_rows, Returned lsn) ->
  run (build_wal_segment_list seg fuel origin_tli origin_lsn
         target_tli target_lsn history_buf) =
    (loop_rows ++
     [XLogFileName seg target_tli (XLByteToPrevSeg seg target_lsn)],
     Returned tt).
Proof.
  intros H1 H2 P L H3 H4 F W.
  unfold run, build_wal_segment_list, bind, check, lift, llast, find_origin.
  apply Z.ltb_ge in H1, H2, H4. apply Z.leb_gt in H3.
  rewrite H1, H2, P. simpl.
  destruct (rev entries) as [|last' tl]; [discriminate|].
  injection L as ->. simpl. rewrite H3, H4, F. simpl. now rewrite W.
Qed.

(** Fuel only bounds the loop: a loop that returns does the same with
    more fuel, and so does the call. *)
Lemma emit_segments_more_fuel h fuel : forall fuel' lsn rows rows' lsn',
  (fuel <= fuel')%nat ->
  emit_segments seg fuel h lsn rows = (rows', Returned lsn') ->
  emit_segments seg fuel' h lsn rows = (rows', Returned lsn').
Proof.
  induction fuel as [|fuel IH]; simpl; intros fuel' lsn rows rows' lsn' Hle H;
    [discriminate|].
  destruct fuel' as [|fuel']; [lia|]. simpl.
  destruct (covers lsn h); trivial.
  unfold bind, tuplestore_putvalues in *. apply IH; trivial. lia.
Qed.

Lemma walk_entries_more_fuel fuel fuel' entries :
  (fuel <= fuel')%nat ->
  forall lsn rows rows' lsn',
    walk_entries seg fuel entries lsn rows = (rows', Returned lsn') ->
    walk_entries seg fuel' entries lsn rows = (rows', Returned lsn').
Proof.
  intros Hle. induction entries as [|h rest IH]; simpl;
    intros lsn rows rows' lsn' H; trivial.
  run_bind H as rows1 lsn1 E.
  apply (emit_segments_more_fuel h fuel fuel') in E; trivial.
  unfold bind. rewrite E. now apply IH.
Qed.

Lemma build_more_fuel fuel fuel' origin_tli origin_lsn target_tli target_lsn
    history_buf rows :
  (fuel <= fuel')%nat ->
  run (build_wal_segment_list seg fuel origin_tli origin_lsn
         target_tli target_lsn history_buf) = (rows, Returned tt) ->
  run (build_wal_segment_list seg fuel' origin_tli origin_lsn
         target_tli target_lsn history_buf) = (rows, Returned tt).
Proof.
  intros Hle H.
  apply build_returned in H
    as (entries & last & origin & loop_rows & lsn & H1 & H2 & P & L & H3 &
        H4 & F & W & ->).
  eapply build_run; eauto using walk_entries_more_fuel.
Qed.

End Runs.

(** ** Sorted lists and growing timelines *)

Lemma StronglySorted_nth {A} (R : A -> A -> Prop) l : forall i j a b,
  StronglySorted R l ->
  nth_error l i = Some a -> nth_error l j = Some b -> (i < j)%nat -> R a b.
Proof.
  induction l as [|x l IH]; intros i j a b Hs Hi Hj Hij.
  - destruct i; discriminate.
  - apply StronglySorted_inv in Hs as [Hs Hall].
    destruct j as [|j]; [lia|]. simpl in Hj.
    destruct i as [|i]; simpl in Hi.
    + injection Hi as <-. rewrite Forall_forall in Hall.
      apply Hall. eapply nth_error_In; eauto.
    + apply (IH i j); trivial. lia.
Qed.

Lemma StronglySorted_app {A} (R : A -> A -> Prop) l1 l2 :
  StronglySorted R l1 -> StronglySorted R l2 ->
  (forall a b, In a l1 -> In b l2 -> R a b) ->
  StronglySorted R (l1 ++ l2).
Proof.
  induction l1 as [|x l1 IH]; simpl; intros H1 H2 H12; trivial.
  apply StronglySorted_inv in H1 as [H1 Hall].
  constructor.
  - apply IH; auto.
  - apply Forall_app. split; trivial.
    apply Forall_forall. intros b Hb. apply H12; auto.
Qed.

Lemma increasing_from_snoc l : forall prev x y,
  increasing_from prev (l ++ [x]) -> x < y ->
  increasing_from prev ((l ++ [x]) ++ [y]).
Proof.
  induction l as [|z l IH]; simpl; intros prev x y H Hxy.
  - destruct H as [H _]. auto.
  - destruct H as [Hz H]. split; auto.
Qed.

Lemma increasing_from_app prev l1 : forall t l2,
  increasing_from prev (l1 ++ t :: l2) ->
  increasing_from t l2 /\ forall x, In x l1 -> x < t.
Proof.
  revert prev. induction l1 as [|y l1 IH]; simpl; intros prev t l2 H.
  - destruct H as [_ H]. split; [trivial | contradiction].
  - destruct H as [Hy H]. destruct (IH _ _ _ H) as [H2 Hlt].
    split; trivial. intros x [<- | Hin]; auto.
    apply (increasing_from_In (l1 ++ t :: l2)); trivial.
    apply in_or_app. right. now left.
Qed.

(** ** Reading the names back *)

Lemma unsigned_range base s v rest :
  Scanf.unsigned base s = Some (v, rest) -> 0 <= v < 2 ^ 32.
Proof.
  unfold Scanf.unsigned.
  destruct (Scanf.sign _) as [neg s1].
  destruct (Scanf.digits _ _ _) as [[n v'] r].
  destruct n; [discriminate|].
  intros [= <- _]. apply Z.mod_pos_bound. reflexivity.
Qed.

Lemma sscanf_timeline_range fline t hi lo :
  sscanf fline = ThreeFields t hi lo -> 0 <= t < 2 ^ 32.
Proof.
  unfold sscanf.
  destruct (Scanf.unsigned 10 fline) as [[t' s1]|] eqn:U; [|discriminate].
  destruct (Scanf.unsigned 16 _) as [[hi' s2]|]; [|discriminate].
  destruct (Scanf.literal _ _) as [s3|]; [|discriminate].
  destruct (Scanf.unsigned 16 s3) as [[lo' s4]|]; [|discriminate].
  intros [= <- _ _]. eapply unsigned_range; eauto.
Qed.

Lemma parsed_timelines_range buffer entries :
  parseTimeLineHistory buffer = inr entries ->
  Forall (fun e => 0 <= tli e < 2 ^ 32) entries.
Proof.
  unfold parseTimeLineHistory. intros H.
  apply parse_lines_inv in H as (new & -> & _ & _ & Hall). simpl.
  induction Hall as [|fline e lines es (t & hi & lo & Hs & <- & _) _ IH];
    constructor; trivial.
  eapply sscanf_timeline_range; eauto.
Qed.

Lemma hex_value_append s1 : forall s2 acc,
  hex_value (s1 +++ s2) acc = hex_value s2 (hex_value s1 acc).
Proof.
  induction s1 as [|c s1 IH]; simpl; intros; trivial.
Qed.

Lemma digit_value_hex_digit d :
  0 <= d < 16 -> digit_value 16 (hex_digit d) = Some d.
Proof.
  intros H.
  assert (Hd : d = 0 \/ d = 1 \/ d = 2 \/ d = 3 \/ d = 4 \/ d = 5 \/ d = 6 \/
               d = 7 \/ d = 8 \/ d = 9 \/ d = 10 \/ d = 11 \/ d = 12 \/
               d = 13 \/ d = 14 \/ d = 15) by lia.
  repeat (destruct Hd as [-> | Hd]; [reflexivity|]). now subst.
Qed.

Lemma hex_value_hex n : forall v acc,
  0 <= v < 16 ^ Z.of_nat n ->
  hex_value (hex n v) acc = acc * 16 ^ Z.of_nat n + v.
Proof.
  induction n as [|n IH]; intros v acc Hv.
  - simpl in *. lia.
  - rewrite Nat2Z.inj_succ, Z.pow_succ_r in * by lia.
    simpl hex. rewrite hex_value_append, IH
      by (split; [apply Z.div_pos | apply Z.div_lt_upper_bound]; lia).
    cbn [hex_value].
    rewrite digit_value_hex_digit by (apply Z.mod_pos_bound; lia).
    pose proof (Z.div_mod v 16 ltac:(lia)). lia.
Qed.

Lemma substring_whole a : forall n,
  String.length a = n -> substring 0 n a = a.
Proof.
  induction a as [|c a IH]; simpl; intros n <-; trivial. now rewrite IH.
Qed.

Lemma substring_first a : forall n b,
  String.length a = n -> substring 0 n (a +++ b) = a.
Proof.
  induction a as [|c a IH]; simpl; intros n b <-.
  - now destruct b.
  - now rewrite IH.
Qed.

Lemma substring_skip a : forall k n m b,
  String.length a = k -> substring (k + n) m (a +++ b) = substring n m b.
Proof.
  induction a as [|c a IH]; simpl; intros k n m b <-; trivial.
  now apply IH.
Qed.

(** The fields of a name, for a [uint32] timeline and the segment number
    of a 64-bit position. *)
Lemma XLogFileName_fields seg t s :
  0 < seg -> (seg | 2 ^ 32) ->
  0 <= t < 2 ^ 32 -> 0 <= s < 2 ^ 64 / seg ->
  0 <= s / XLogSegmentsPerXLogId seg < 2 ^ 32 /\
  0 <= s mod XLogSegmentsPerXLogId seg < 2 ^ 32 /\
  0 < XLogSegmentsPerXLogId seg /\
  XLogFileName seg t s =
    hex 8 t +++ hex 8 (s / XLogSegmentsPerXLogId seg) +++
    hex 8 (s mod XLogSegmentsPerXLogId seg).
Proof.
  intros Hseg [k Hk] Ht Hs.
  unfold XLogFileName, hex08, wrap32, XLogSegmentsPerXLogId in *.
  change 4294967296 with (2 ^ 32) in *.
  assert (HP : 2 ^ 32 / seg = k) by (rewrite Hk; apply Z.div_mul; lia).
  rewrite HP in *.
  assert (Hk0 : 0 < k) by nia.
  assert (H64 : 2 ^ 64 / seg = 2 ^ 32 * k).
  { change (2 ^ 64) with (2 ^ 32 * 2 ^ 32). rewrite Hk at 2.
    rewrite Z.mul_assoc. apply Z.div_mul. lia. }
  rewrite H64 in Hs.
  pose proof (Z.mod_pos_bound s k Hk0).
  assert (0 <= s / k < 2 ^ 32)
    by (split; [apply Z.div_pos | apply Z.div_lt_upper_bound]; lia).
  assert (0 <= s mod k < 2 ^ 32) by nia.
  repeat split; try lia.
  now rewrite !Z.mod_small by trivial.
Qed.

Lemma name_reads_back seg t s :
  0 < seg -> (seg | 2 ^ 32) ->
  0 <= t < 2 ^ 32 -> 0 <= s < 2 ^ 64 / seg ->
  name_timeline (XLogFileName seg t s) = t /\
  name_segment seg (XLogFileName seg t s) = s.
Proof.
  intros Hseg Hdiv Ht Hs.
  destruct (XLogFileName_fields seg t s Hseg Hdiv Ht Hs)
    as (Hhi & Hlo & HP & ->).
  unfold name_timeline, name_segment.
  set (P := XLogSegmentsPerXLogId seg) in *.
  assert (H8 : forall v, String.length (hex 8 v) = 8%nat)
    by (intros; apply length_hex).
  assert (H16 : forall v, 0 <= v < 2 ^ 32 -> hex_value (hex 8 v) 0 = v).
  { intros v Hv. rewrite hex_value_hex; [lia|].
    change (16 ^ Z.of_nat 8) with (2 ^ 32). lia. }
  split.
  - rewrite substring_first by apply H8. now apply H16.
  - rewrite (substring_skip (hex 8 t) 8 0 8) by apply H8.
    rewrite substring_first by apply H8.
    rewrite (substring_skip (hex 8 t) 8 8 8) by apply H8.
    rewrite (substring_skip (hex 8 (s / P)) 8 0 8) by apply H8.
    rewrite substring_whole by apply H8.
    rewrite !H16 by trivial.
    pose proof (Z.div_mod s P ltac:(lia)). lia.
Qed.

(** * Further properties *)

(** ** Comment lines *)

Lemma parse_lines_skips_comments lines : forall lasttli prevend acc,
  parse_lines lines lasttli prevend acc =
  parse_lines (filter (fun fline => negb (is_comment fline)) lines)
    lasttli prevend acc.
Proof.
  induction lines as [|fline rest IH]; simpl; intros; trivial.
  destruct (is_comment fline) eqn:C; simpl.
  - apply (parse_line_skipped lasttli prevend) in C. rewrite C. apply IH.
  - destruct (parse_line lasttli prevend fline); auto.
Qed.

Lemma split_lines_append a : forall rest,
  no_nul a = true ->
  split_lines (a +++ LF +++ rest) = split_lines a ++ split_lines rest.
Proof.
  induction a as [|c a IH]; intros rest Ha.
  - reflexivity.
  - simpl in Ha. apply andb_prop in Ha as [Hc Ha].
    apply negb_true_iff in Hc. cbn [String.append split_lines].
    rewrite Hc. specialize (IH rest Ha). cbn [String.append] in IH.
    rewrite IH. destruct (is_newline c); trivial.
    pose proof (split_lines_not_nil a).
    destruct (split_lines a); [congruence | reflexivity].
Qed.

Lemma split_lines_one_line c : one_line c = true -> split_lines c = [c].
Proof.
  induction c as [|x c IH]; simpl; intros H; trivial.
  apply andb_prop in H as [H Hc]. apply andb_prop in H as [Hn Hl].
  apply negb_true_iff in Hn, Hl. rewrite Hn, Hl, (IH Hc). reflexivity.
Qed.

Lemma one_line_no_nul c : one_line c = true -> no_nul c = true.
Proof.
  induction c as [|x c IH]; simpl; intros H; trivial.
  apply andb_prop in H as [H Hc]. apply andb_prop in H as [Hn _].
  now rewrite Hn, IH.
Qed.

(** X1: a comment line (blank, or with [#] after its leading white space)
    put between two lines of a history text changes nothing: the parser
    gives the same entries, or the same error. *)
Theorem comment_line_is_ignored a c b :
  no_nul a = true -> one_line c = true -> is_comment c = true ->
  parseTimeLineHistory (a +++ LF +++ c +++ LF +++ b) =
  parseTimeLineHistory (a +++ LF +++ b).
Proof.
  intros Ha Hc Hcomment. unfold parseTimeLineHistory.
  rewrite !split_lines_append by auto using one_line_no_nul.
  rewrite (split_lines_one_line c Hc).
  rewrite parse_lines_skips_comments.
  rewrite (parse_lines_skips_comments (split_lines a ++ split_lines b)).
  rewrite !filter_app. simpl. now rewrite Hcomment.
Qed.

Lemma comment_line_is_ignored_witness :
  parseTimeLineHistory
    (("1" +++ TAB +++ "0/3000000") +++ LF +++ ("  # promoted") +++ LF +++
     ("2" +++ TAB +++ "0/5000000")) =
  parseTimeLineHistory
    (("1" +++ TAB +++ "0/3000000") +++ LF +++ ("2" +++ TAB +++ "0/5000000")).
Proof.
  apply (comment_line_is_ignored ("1" +++ TAB +++ "0/3000000") "  # promoted"
           ("2" +++ TAB +++ "0/5000000")); reflexivity.
Defined.

(** ** Ranges of the parsed entries *)

Lemma sscanf_fields_range fline t hi lo :
  sscanf fline = ThreeFields t hi lo ->
  0 <= t < 2 ^ 32 /\ 0 <= hi < 2 ^ 32 /\ 0 <= lo < 2 ^ 32.
Proof.
  unfold sscanf.
  destruct (Scanf.unsigned 10 fline) as [[t' s1]|] eqn:U1; [|discriminate].
  destruct (Scanf.unsigned 16 _) as [[hi' s2]|] eqn:U2; [|discriminate].
  destruct (Scanf.literal _ _) as [s3|]; [|discriminate].
  destruct (Scanf.unsigned 16 s3) as [[lo' s4]|] eqn:U3; [|discriminate].
  intros [= <- <- <-].
  split; [|split]; eapply unsigned_range; eassumption.
Qed.

Lemma small_bits_are_clear lo n :
  0 <= lo < 2 ^ 32 -> 32 <= n -> Z.testbit lo n = false.
Proof.
  intros Hlo Hn. destruct (Z.eq_dec lo 0) as [-> | Hnz].
  - apply Z.bits_0.
  - apply Z.bits_above_log2; [lia|].
    assert (Z.log2 lo < 32) by (apply Z.log2_lt_pow2; lia). lia.
Qed.

(** [(hi << 32) | lo] is [hi * 2^32 + lo] for two 32-bit halves. *)
Lemma switchpoint_value hi lo :
  0 <= hi < 2 ^ 32 -> 0 <= lo < 2 ^ 32 ->
  Z.lor (Z.shiftl hi 32) lo = hi * 2 ^ 32 + lo.
Proof.
  intros Hhi Hlo.
  assert (Hdisjoint : Z.land (Z.shiftl hi 32) lo = 0).
  { apply Z.bits_inj'. intros n Hn.
    rewrite Z.land_spec, Z.bits_0.
    destruct (Z.lt_ge_cases n 32).
    - now rewrite Z.shiftl_spec_low.
    - rewrite (small_bits_are_clear lo n) by lia. apply andb_false_r. }
  rewrite <- Z.lxor_lor, <- Z.add_nocarry_lxor by trivial.
  now rewrite Z.shiftl_mul_pow2 by lia.
Qed.

Lemma chained_range high : forall es prev,
  0 <= prev < high -> chained prev es ->
  Forall (fun e => 0 <= end_ e < high) es ->
  Forall (fun e => 0 <= begin e < high) es.
Proof.
  induction es as [|e es IH]; simpl; intros prev Hp Hch Hends;
    constructor.
  - destruct Hch as [-> _]. exact Hp.
  - destruct Hch as [_ Hch]. apply Forall_cons_iff in Hends as [He Hends].
    eapply IH; eauto.
Qed.

Lemma increasing_from_Forall tlis : forall prev,
  increasing_from prev tlis -> Forall (fun t => prev < t) tlis.
Proof.
  intros prev H. apply Forall_forall. intros t Ht.
  eapply increasing_from_In; eauto.
Qed.

(** X2: every entry of a parsed history has a timeline between 1 and
    2^32 - 1 and 64-bit positions, and its end is [hi * 2^32 + lo] for the
    two hexadecimal groups of its line. *)
Theorem parsed_entries_in_range buffer entries :
  parseTimeLineHistory buffer = inr entries ->
  Forall (fun e => 0 < tli e < 2 ^ 32 /\ 0 <= begin e < 2 ^ 64 /\
                   0 <= end_ e < 2 ^ 64) entries /\
  Forall2 (fun fline e => exists t hi lo,
             sscanf fline = ThreeFields t hi lo /\
             end_ e = hi * 2 ^ 32 + lo)
          (data_lines buffer) entries.
Proof.
  unfold parseTimeLineHistory, data_lines. intros H.
  apply parse_lines_inv in H as (new & -> & Hinc & Hch & Hall). simpl.
  assert (Hval : Forall2 (fun fline e => exists t hi lo,
                   sscanf fline = ThreeFields t hi lo /\
                   end_ e = hi * 2 ^ 32 + lo /\
                   0 <= tli e < 2 ^ 32 /\ 0 <= end_ e < 2 ^ 64)
                 (filter (fun fline => negb (is_comment fline))
                         (split_lines buffer)) new).
  { eapply Forall2_impl; [|exact Hall].
    intros fline e (t & hi & lo & Hs & Etli & Eend).
    destruct (sscanf_fields_range _ _ _ _ Hs) as (Ht & Hhi & Hlo).
    exists t, hi, lo. rewrite Etli, Eend, switchpoint_value by trivial.
    repeat split; trivial; nia. }
  split.
  - assert (Hends : Forall (fun e => 0 <= end_ e < 2 ^ 64) new).
    { clear - Hval. induction Hval as [|? ? ? ? (?&?&?&?&?&?&?)];
        constructor; trivial. }
    assert (Htli : Forall (fun e => 0 <= tli e < 2 ^ 32) new).
    { clear - Hval. induction Hval as [|? ? ? ? (?&?&?&?&?&?&?)];
        constructor; trivial. }
    pose proof (chained_range (2 ^ 64) new 0 ltac:(lia) Hch Hends) as Hbeg.
    apply increasing_from_Forall in Hinc.
    rewrite Forall_map in Hinc.
    rewrite Forall_forall in *. intros e He.
    specialize (Hends e He). specialize (Htli e He).
    specialize (Hbeg e He). specialize (Hinc e He). lia.
  - eapply Forall2_impl; [|exact Hval].
    intros fline e (t & hi & lo & ? & ? & _). now exists t, hi, lo.
Qed.

Lemma parsed_entries_in_range_witness :
  Forall (fun e => 0 < tli e < 2 ^ 32 /\ 0 <= begin e < 2 ^ 64 /\
                   0 <= end_ e < 2 ^ 64)
         [mkEntry 1 0 50331648; mkEntry 2 50331648 83886080].
Proof.
  apply (parsed_entries_in_range history_of_3). reflexivity.
Defined.

(** ** Where the parser fails *)

Lemma parse_line_failed lasttli prevend fline e :
  parse_line lasttli prevend fline = Failed e ->
  is_comment fline = false /\
  (e = MissingTimelineId fline \/ e = MissingSwitchPoint fline \/
   e = NonIncreasingTimeline fline).
Proof.
  unfold parse_line. destruct (is_comment fline); [discriminate|].
  destruct (sscanf fline) as [|t|t hi|t hi lo]; simpl;
    try (intros [= <-]; auto).
  destruct (t <=? lasttli); intros [= <-]; auto.
Qed.

Lemma parse_lines_failure lines : forall lasttli prevend acc e,
  parse_lines lines lasttli prevend acc = inl e ->
  exists pre fline post entries,
    lines = pre ++ fline :: post /\
    is_comment fline = false /\
    parse_lines pre lasttli prevend acc = inr entries /\
    parse_lines (pre ++ [fline]) lasttli prevend acc = inl e /\
    (e = MissingTimelineId fline \/ e = MissingSwitchPoint fline \/
     e = NonIncreasingTimeline fline).
Proof.
  induction lines as [|fline rest IH]; simpl; intros lasttli prevend acc e H;
    [discriminate|].
  destruct (parse_line lasttli prevend fline) as [|e'|entry] eqn:E.
  - apply IH in H as (pre & f & post & entries & -> & Hc & P1 & P2 & He).
    exists (fline :: pre), f, post, entries. simpl. rewrite E. auto.
  - injection H as ->. apply parse_line_failed in E as Hf.
    exists [], fline, rest, acc. simpl. rewrite E. tauto.
  - apply IH in H as (pre & f & post & entries & -> & Hc & P1 & P2 & He).
    exists (fline :: pre), f, post, entries. simpl. rewrite E. auto.
Qed.

(** X3: when the parser fails, the error quotes one data line of the
    text; the data lines before it parse without error, and the text cut
    after the quoted line fails in the same way.  The parser raises none
    of the errors of the enumeration. *)
Theorem parse_error_quotes_first_bad_line buffer e :
  parseTimeLineHistory buffer = inl e ->
  exists pre fline post entries,
    data_lines buffer = pre ++ fline :: post /\
    parse_lines pre 0 InvalidXLogRecPtr [] = inr entries /\
    parse_lines (pre ++ [fline]) 0 InvalidXLogRecPtr [] = inl e /\
    (e = MissingTimelineId fline \/ e = MissingSwitchPoint fline \/
     e = NonIncreasingTimeline fline).
Proof.
  unfold parseTimeLineHistory, data_lines.
  rewrite parse_lines_skips_comments. intros H.
  apply parse_lines_failure in H
    as (pre & fline & post & entries & Hl & _ & P1 & P2 & He).
  exists pre, fline, post, entries. auto.
Qed.

Lemma parse_error_quotes_first_bad_line_witness :
  exists pre fline post entries,
    data_lines decreasing_history = pre ++ fline :: post /\
    parse_lines pre 0 InvalidXLogRecPtr [] = inr entries /\
    parse_lines (pre ++ [fline]) 0 InvalidXLogRecPtr [] =
      inl (NonIncreasingTimeline ("1" +++ TAB +++ "0/0")) /\
    (NonIncreasingTimeline ("1" +++ TAB +++ "0/0") = MissingTimelineId fline \/
     NonIncreasingTimeline ("1" +++ TAB +++ "0/0") = MissingSwitchPoint fline \/
     NonIncreasingTimeline ("1" +++ TAB +++ "0/0") =
       NonIncreasingTimeline fline).
Proof.
  apply (parse_error_quotes_first_bad_line decreasing_history). reflexivity.
Defined.

(** ** The rows of parse_wal_history *)

Lemma Int32GetDatum_read_back t :
  0 <= t < 2 ^ 32 -> wrap32 (Int32GetDatum t) = t.
Proof.
  intros Ht. unfold Int32GetDatum, wrap32.
  rewrite (Z.mod_small t) by trivial.
  destruct (t <? 2 ^ 31); [now apply Z.mod_small|].
  symmetry. apply (Z.mod_unique _ _ (-1)); lia.
Qed.

Lemma entry_of_row_of_entry e :
  0 <= tli e < 2 ^ 32 -> entry_of_row (row_of_entry e) = e.
Proof.
  destruct e as [t b f]. simpl. intros Ht.
  unfold entry_of_row, row_of_entry, XLogRecPtrIsInvalid, InvalidXLogRecPtr.
  simpl. rewrite Int32GetDatum_read_back by trivial.
  destruct (Z.eqb_spec b 0), (Z.eqb_spec f 0); subst; reflexivity.
Qed.

Lemma parse_wal_history_rows rsinfo composite history_buf rows :
  parse_wal_history rsinfo composite history_buf = inr rows ->
  exists entries,
    parseTimeLineHistory history_buf = inr entries /\
    rows = map row_of_entry entries.
Proof.
  unfold parse_wal_history.
  destruct (check_context rsinfo); [discriminate|].
  destruct composite; [|discriminate]. simpl.
  destruct (parseTimeLineHistory history_buf) as [e|entries];
    [discriminate|].
  intros [= <-]. now exists entries.
Qed.

(** X4: the rows of a successful [parse_wal_history] lose nothing: read
    with NULL as 0/0 and the timeline as an unsigned 32-bit number they
    are the entries that [parseTimeLineHistory] builds from the text, one
    row for each data line, and no position column holds 0/0. *)
Theorem history_rows_read_back rsinfo composite history_buf rows :
  parse_wal_history rsinfo composite history_buf = inr rows ->
  parseTimeLineHistory history_buf = inr (map entry_of_row rows) /\
  List.length rows = List.length (data_lines history_buf) /\
  Forall (fun r => begin_col r <> Some InvalidXLogRecPtr /\
                   end_col r <> Some InvalidXLogRecPtr) rows.
Proof.
  intros H. apply parse_wal_history_rows in H as (entries & P & ->).
  pose proof (parsed_timelines_range _ _ P) as Hrange.
  split; [|split].
  - rewrite P. f_equal. rewrite map_map.
    clear P. induction Hrange as [|e es He _ IH]; simpl; trivial.
    now rewrite entry_of_row_of_entry, <- IH.
  - unfold parseTimeLineHistory, data_lines in *.
    apply parse_lines_inv in P as (new & -> & _ & _ & Hall).
    rewrite List.length_map. simpl. symmetry. eapply Forall2_length; eauto.
  - apply Forall_map, Forall_forall. intros e _.
    unfold row_of_entry, XLogRecPtrIsInvalid. simpl.
    destruct (Z.eqb_spec (begin e) InvalidXLogRecPtr),
             (Z.eqb_spec (end_ e) InvalidXLogRecPtr);
      split; congruence.
Qed.

Lemma history_rows_read_back_witness :
  parseTimeLineHistory history_of_3 =
    inr (map entry_of_row
           [mkRow 1 None (Some 50331648);
            mkRow 2 (Some 50331648) (Some 83886080)]) /\
  List.length [mkRow 1 None (Some 50331648);
               mkRow 2 (Some 50331648) (Some 83886080)] =
    List.length (data_lines history_of_3) /\
  Forall (fun r => begin_col r <> Some InvalidXLogRecPtr /\
                   end_col r <> Some InvalidXLogRecPtr)
    [mkRow 1 None (Some 50331648); mkRow 2 (Some 50331648) (Some 83886080)].
Proof.
  apply (history_rows_read_back (Some (mkReturnSetInfo 2)) true history_of_3).
  reflexivity.
Defined.

(** X5: in the rows of a successful [parse_wal_history] the first begin
    column is NULL and every later begin column repeats the end column of
    the row before it; a row shows the timeline of its line as a signed
    32-bit number, and its end column is NULL exactly when the line gives
    the position 0/0. *)
Theorem history_rows_chain rsinfo composite history_buf rows :
  parse_wal_history rsinfo composite history_buf = inr rows ->
  (forall r, hd_error rows = Some r -> begin_col r = None) /\
  (forall i a b,
      nth_error rows i = Some a -> nth_error rows (S i) = Some b ->
      begin_col b = end_col a) /\
  Forall2 (fun fline r => exists t hi lo,
             sscanf fline = ThreeFields t hi lo /\
             timeline_col r = (if t <? 2 ^ 31 then t else t - 2 ^ 32) /\
             (end_col r = None <-> hi = 0 /\ lo = 0))
          (data_lines history_buf) rows.
Proof.
  intros H. apply parse_wal_history_rows in H as (entries & P & ->).
  unfold parseTimeLineHistory, data_lines in *.
  apply parse_lines_inv in P as (new & -> & _ & Hch & Hall). cbn [app].
  split; [|split].
  - intros r Hr. destruct new as [|e es]; [discriminate|].
    injection Hr as <-. destruct Hch as [Hb _]. simpl. now rewrite Hb.
  - intros i a b Ha Hb. rewrite nth_error_map in Ha, Hb.
    destruct (nth_error new i) as [ea|] eqn:Ea; [|discriminate].
    destruct (nth_error new (S i)) as [eb|] eqn:Eb; [|discriminate].
    injection Ha as <-. injection Hb as <-.
    simpl. now rewrite (chained_nth new _ i ea eb Hch Ea Eb).
  - clear Hch. induction Hall as [|fline e lines es Hs _ IH];
      simpl; constructor; trivial.
    destruct Hs as (t & hi & lo & Hs & Etli & Eend).
    destruct (sscanf_fields_range _ _ _ _ Hs) as (Ht & Hhi & Hlo).
    exists t, hi, lo. split; trivial. split.
    + simpl. unfold Int32GetDatum, wrap32. rewrite Etli.
      now rewrite Z.mod_small by trivial.
    + simpl. unfold XLogRecPtrIsInvalid, InvalidXLogRecPtr.
      rewrite Eend, switchpoint_value by trivial.
      destruct (Z.eqb_spec (hi * 2 ^ 32 + lo) 0); split;
        try discriminate; try tauto; intros; nia.
Qed.

Lemma history_rows_chain_witness :
  parse_wal_history (Some (mkReturnSetInfo 2)) true history_of_3 =
    inr [mkRow 1 None (Some 50331648);
         mkRow 2 (Some 50331648) (Some 83886080)] /\
  forall i a b,
    nth_error [mkRow 1 None (Some 50331648);
               mkRow 2 (Some 50331648) (Some 83886080)] i = Some a ->
    nth_error [mkRow 1 None (Some 50331648);
               mkRow 2 (Some 50331648) (Some 83886080)] (S i) = Some b ->
    begin_col b = end_col a.
Proof.
  split; [reflexivity|].
  apply (history_rows_chain (Some (mkReturnSetInfo 2)) true history_of_3).
  reflexivity.
Defined.

(** ** The loop in closed form, while the cursor does not wrap *)

Lemma map_seq_from {A} n : forall (f : nat -> A) k,
  map f (seq k n) = map (fun i => f (k + i)%nat) (seq 0 n).
Proof.
  induction n as [|n IH]; intros f k; simpl; trivial.
  rewrite Nat.add_0_r. f_equal.
  rewrite (IH f (S k)), (IH (fun i => f (k + i)%nat) 1%nat).
  apply map_ext. intros i. f_equal. lia.
Qed.

Lemma StronglySorted_map_seq {A} (R : A -> A -> Prop) (f : nat -> A) n :
  forall k,
    (forall i j, (i < j)%nat -> R (f i) (f j)) ->
    StronglySorted R (map f (seq k n)).
Proof.
  induction n as [|n IH]; intros k HR; simpl; constructor; auto.
  apply Forall_forall. intros x Hx. apply in_map_iff in Hx as (j & <- & Hj).
  apply in_seq in Hj. apply HR. lia.
Qed.

Lemma walk_entries_app seg fuel l1 : forall l2 lsn rows,
  walk_entries seg fuel (l1 ++ l2) lsn rows =
  bind (walk_entries seg fuel l1 lsn) (walk_entries seg fuel l2) rows.
Proof.
  induction l1 as [|h l1 IH]; intros l2 lsn rows; simpl; trivial.
  unfold bind.
  destruct (emit_segments seg fuel h lsn rows) as [rows1 [lsn1|e| |]];
    trivial.
Qed.

Section Closed.

Variable seg : Z.
Hypothesis seg_pos : 0 < seg.

Lemma aligned_step lsn :
  lsn mod seg = 0 -> (lsn + seg) mod seg = 0 /\ (lsn + seg) / seg = lsn / seg + 1.
Proof.
  intros Ha. replace (lsn + seg) with (lsn + 1 * seg) by lia.
  rewrite Z.mod_add, Z.div_add by lia. auto.
Qed.

Lemma aligned_steps lsn k :
  lsn mod seg = 0 ->
  (lsn + k * seg) mod seg = 0 /\ (lsn + k * seg) / seg = lsn / seg + k /\
  lsn = seg * (lsn / seg).
Proof.
  intros Ha. rewrite Z.mod_add, Z.div_add by lia.
  pose proof (Z.div_mod lsn seg ltac:(lia)). repeat split; trivial; lia.
Qed.

(** One entry: the rows are the segments that end at the boundaries the
    cursor goes through; the loop leaves at the first boundary outside
    the span. *)
Lemma emit_segments_closed h fuel : forall lsn rows rows' lsn',
  end_ h + seg <= 2 ^ 64 ->
  lsn mod seg = 0 -> 0 < lsn ->
  emit_segments seg fuel h lsn rows = (rows', Returned lsn') ->
  exists k : nat,
    lsn' = lsn + Z.of_nat k * seg /\
    rows' = rows ++
            map (fun i => name_of seg (tli h, lsn / seg - 1 + Z.of_nat i))
                (seq 0 k) /\
    (forall i, (i < k)%nat -> covers (lsn + Z.of_nat i * seg) h = true) /\
    covers lsn' h = false.
Proof.
  induction fuel as [|fuel IH]; simpl; intros lsn rows rows' lsn' He Ha H0 H;
    [discriminate|].
  destruct (covers lsn h) eqn:C.
  - assert (Hlt : lsn < end_ h).
    { unfold covers in C. apply andb_prop in C as [_ C].
      now apply Z.ltb_lt in C. }
    unfold bind, tuplestore_putvalues in H.
    rewrite next_segment_start_step in H by (trivial; lia).
    destruct (aligned_step lsn Ha) as [Ha' Hq].
    apply IH in H as (k & -> & -> & Hin & Hout); trivial; try lia.
    exists (S k). repeat split.
    + lia.
    + rewrite <- app_assoc. f_equal.
      change (seq 0 (S k)) with (0%nat :: seq 1 k).
      rewrite <- seq_shift. cbn [map app]. rewrite map_map.
      f_equal.
      * unfold name_of. simpl. f_equal.
        rewrite XLByteToPrevSeg_on_boundary by (trivial; lia). lia.
      * apply map_ext. intros i. unfold name_of. simpl. f_equal.
        rewrite Hq. lia.
    + intros [|i] Hi.
      * now replace (lsn + Z.of_nat 0 * seg) with lsn by lia.
      * replace (lsn + Z.of_nat (S i) * seg)
          with (lsn + seg + Z.of_nat i * seg) by lia.
        apply Hin. lia.
    + now replace (lsn + Z.of_nat (S k) * seg)
        with (lsn + seg + Z.of_nat k * seg) by lia.
  - injection H as <- <-. exists 0%nat. simpl.
    rewrite app_nil_r, Z.add_0_r. repeat split; trivial. intros i Hi. lia.
Qed.

(** All entries: the segment numbers of the rows are consecutive, the
    rows are in strict order, each row is on the timeline of an entry
    whose span holds its boundary, and an entry whose span begins at or
    below the first cursor lies wholly below the last one. *)
Lemma walk_entries_closed fuel entries : forall prev lsn rows rows' lsn',
  Forall (fun h => end_ h + seg <= 2 ^ 64) entries ->
  increasing_from prev (map tli entries) ->
  lsn mod seg = 0 -> 0 < lsn ->
  walk_entries seg fuel entries lsn rows = (rows', Returned lsn') ->
  exists ps,
    rows' = rows ++ map (name_of seg) ps /\
    lsn' = lsn + Z.of_nat (List.length ps) * seg /\
    map snd ps = map (fun i => lsn / seg - 1 + Z.of_nat i)
                     (seq 0 (List.length ps)) /\
    StronglySorted pair_lt ps /\
    Forall (fun p => exists h, In h entries /\ fst p = tli h /\
                     covers (seg * (snd p + 1)) h = true) ps /\
    (forall h, In h entries -> begin h <= lsn -> end_ h <= lsn').
Proof.
  induction entries as [|h rest IH]; simpl;
    intros prev lsn rows rows' lsn' He Hinc Ha H0 H.
  - injection H as <- <-. exists []. simpl. rewrite app_nil_r.
    repeat split; try constructor; try lia; try contradiction.
  - apply Forall_cons_iff in He as [Heh He]. destruct Hinc as [_ Hinc].
    run_bind H as rows1 lsn1 E.
    apply emit_segments_closed in E as (k & -> & -> & Hin & Hout); trivial.
    destruct (aligned_steps lsn (Z.of_nat k) Ha) as (Ha1 & Hq1 & Hlsn).
    apply (IH (tli h)) in H as (ps2 & -> & -> & Hsnd & Hs2 & Hall2 & Hend2);
      trivial; try lia.
    set (ps1 := map (fun i => (tli h, lsn / seg - 1 + Z.of_nat i)) (seq 0 k)).
    assert (Hlen1 : List.length ps1 = k)
      by (unfold ps1; now rewrite List.length_map, length_seq).
    exists (ps1 ++ ps2).
    rewrite map_app, List.length_app, Hlen1, app_assoc.
    split; [|split; [|split; [|split; [|split]]]].
    + f_equal. f_equal. unfold ps1. now rewrite map_map.
    + lia.
    + rewrite map_app, Hsnd, seq_app, map_app. f_equal.
      * unfold ps1. rewrite map_map. reflexivity.
      * rewrite (map_seq_from (List.length ps2) _ (0 + k)).
        apply map_ext. intros i. rewrite Hq1. lia.
    + apply StronglySorted_app; trivial.
      * unfold ps1. apply StronglySorted_map_seq. intros i j Hij.
        right. simpl. split; [reflexivity | lia].
      * intros p q Hp Hq. unfold ps1 in Hp.
        apply in_map_iff in Hp as (i & <- & _).
        rewrite Forall_forall in Hall2.
        destruct (Hall2 q Hq) as (h' & Hin' & Hf & _).
        left. simpl. rewrite Hf.
        apply (increasing_from_In (map tli rest)); trivial.
        now apply in_map.
    + apply Forall_app. split.
      * unfold ps1. apply Forall_forall. intros p Hp.
        apply in_map_iff in Hp as (i & <- & Hi). apply in_seq in Hi.
        exists h. simpl. repeat split; auto.
        replace (seg * (lsn / seg - 1 + Z.of_nat i + 1))
          with (lsn + Z.of_nat i * seg) by lia.
        apply Hin. lia.
      * eapply Forall_impl; [|exact Hall2]. intros p (h' & ? & ?).
        exists h'. auto.
    + intros h' [<- | Hin'] Hb.
      * unfold covers in Hout. apply andb_false_iff in Hout as [Hout|Hout];
          [apply Z.leb_gt in Hout | apply Z.ltb_ge in Hout]; lia.
      * apply Hend2; trivial. lia.
Qed.

End Closed.

Lemma XLogFileName_compare seg t1 s1 t2 s2 :
  0 < seg -> (seg | 2 ^ 32) ->
  0 <= t1 < 2 ^ 32 -> 0 <= s1 < 2 ^ 64 / seg ->
  0 <= t2 < 2 ^ 32 -> 0 <= s2 < 2 ^ 64 / seg ->
  String.compare (XLogFileName seg t1 s1) (XLogFileName seg t2 s2) =
  compare_pair t1 s1 t2 s2.
Proof.
  intros Hseg Hdiv Ht1 Hs1 Ht2 Hs2.
  destruct (XLogFileName_fields seg t1 s1 Hseg Hdiv Ht1 Hs1)
    as (Hh1 & Hl1 & HP & ->).
  destruct (XLogFileName_fields seg t2 s2 Hseg Hdiv Ht2 Hs2)
    as (Hh2 & Hl2 & _ & ->).
  rewrite !compare_append by now rewrite !length_hex.
  rewrite !compare_hex by (change (16 ^ Z.of_nat 8) with (2 ^ 32); lia).
  unfold compare_pair. destruct (t1 ?= t2); trivial.
  now rewrite (compare_div_mod (XLogSegmentsPerXLogId seg) s1 s2).
Qed.

Lemma divides_2_64 seg : (seg | 2 ^ 32) -> (seg | 2 ^ 64).
Proof.
  intros [k Hk]. exists (2 ^ 32 * k).
  change (2 ^ 64) with (2 ^ 32 * 2 ^ 32). rewrite Hk at 2. lia.
Qed.

(** A call that returns while the cursor cannot wrap, in full. *)
Lemma build_closed seg fuel origin_tli origin_lsn target_tli target_lsn
    history_buf rows :
  0 < seg -> (seg | 2 ^ 32) ->
  0 <= origin_lsn -> 0 <= target_tli < 2 ^ 32 -> target_lsn + seg < 2 ^ 64 ->
  (forall entries, parseTimeLineHistory history_buf = inr entries ->
                   Forall (fun e => end_ e + seg <= 2 ^ 64) entries) ->
  run (build_wal_segment_list seg fuel origin_tli origin_lsn
         target_tli target_lsn history_buf) = (rows, Returned tt) ->
  exists entries origin ps,
    parseTimeLineHistory history_buf = inr entries /\
    find (is_origin origin_tli origin_lsn) entries = Some origin /\
    rows = map (name_of seg)
               (ps ++ [(target_tli, XLByteToPrevSeg seg target_lsn)]) /\
    map snd ps = map (fun i => origin_lsn / seg + Z.of_nat i)
                     (seq 0 (List.length ps)) /\
    StronglySorted pair_lt
      (ps ++ [(target_tli, XLByteToPrevSeg seg target_lsn)]) /\
    Forall (fun p => exists h,
              In h (entries ++ [target_entry target_tli target_lsn origin]) /\
              fst p = tli h /\ covers (seg * (snd p + 1)) h = true) ps /\
    Forall (fun p => 0 <= fst p < 2 ^ 32 /\ 0 <= snd p < 2 ^ 64 / seg)
      (ps ++ [(target_tli, XLByteToPrevSeg seg target_lsn)]) /\
    target_lsn <=
      seg * (origin_lsn / seg + 1 + Z.of_nat (List.length ps)).
Proof.
  intros Hseg Hdiv Ho Htli Ht Hends H.
  pose proof (divides_2_64 seg Hdiv) as Hdiv64.
  apply build_returned in H
    as (entries & last & origin & loop_rows & lsn & Hlsn & _ & P & L & Hlt &
        Hle & F & W & ->).
  specialize (Hends entries P).
  pose proof (parsed_timelines_range _ _ P) as Hrange.
  assert (Hinc : increasing_from 0 (map tli entries)).
  { unfold parseTimeLineHistory in P.
    apply parse_lines_inv in P as (new & -> & Hinc & _). exact Hinc. }
  assert (Hmax : forall h, In h entries -> tli h <= tli last).
  { destruct (rev entries) as [|x tl] eqn:R; [discriminate|].
    injection L as ->.
    assert (E : entries = rev tl ++ [last])
      by (rewrite <- (rev_involutive entries), R; reflexivity).
    rewrite E in *. intros h Hin.
    apply in_app_or in Hin as [Hin | [<- | []]]; [|lia].
    rewrite map_app in Hinc. simpl in Hinc.
    apply increasing_from_app in Hinc as [_ Hltl].
    specialize (Hltl (tli h) (in_map tli _ _ Hin)). lia. }
  set (target := target_entry target_tli target_lsn origin) in *.
  set (c0 := next_segment_start seg origin_lsn) in *.
  assert (Hc0 : c0 = seg * (origin_lsn / seg + 1))
    by (apply next_segment_start_no_wrap; trivial; lia).
  assert (Hq0 : 0 <= origin_lsn / seg) by (apply Z.div_pos; lia).
  assert (Ha0 : c0 mod seg = 0) by now apply next_segment_start_aligned.
  assert (Hc0q : c0 / seg = origin_lsn / seg + 1).
  { rewrite Hc0, Z.mul_comm. apply Z.div_mul. lia. }
  assert (Hpos0 : 0 < c0) by nia.
  assert (Hlt0 : origin_lsn < c0).
  { pose proof (Z.div_mod origin_lsn seg ltac:(lia)).
    pose proof (Z.mod_pos_bound origin_lsn seg Hseg). lia. }
  assert (Hends' : Forall (fun h => end_ h + seg <= 2 ^ 64)
                     (entries ++ [target])).
  { apply Forall_app. split; trivial.
    constructor; [simpl; lia | constructor]. }
  assert (Hinc' : increasing_from 0 (map tli (entries ++ [target]))).
  { destruct (rev entries) as [|x tl] eqn:R; [discriminate|].
    injection L as ->.
    assert (E : entries = rev tl ++ [last])
      by (rewrite <- (rev_involutive entries), R; reflexivity).
    rewrite E in *. rewrite !map_app in *. simpl in *.
    now apply increasing_from_snoc. }
  (* the last cursor is at or above the target *)
  assert (Hreach : target_lsn <= lsn).
  { pose proof W as W'. rewrite walk_entries_app in W'.
    run_bind W' as rows1 lsn1 W1.
    apply (walk_entries_closed seg Hseg fuel entries 0) in W1
      as (ps1 & _ & Hl1 & _ & _ & _ & Hend1); trivial.
    apply find_some in F as [Hin Horigin].
    unfold is_origin in Horigin.
    apply andb_prop in Horigin as [Horigin _].
    apply andb_prop in Horigin as [Hb _]. apply Z.leb_le in Hb.
    specialize (Hend1 origin Hin ltac:(lia)).
    destruct (aligned_steps seg Hseg c0 (Z.of_nat (List.length ps1)) Ha0)
      as (Ha1 & _ & _).
    apply (walk_entries_closed seg Hseg fuel [target] (target_tli - 1))
      in W' as (ps2 & _ & _ & _ & _ & _ & Hend2); trivial.
    - apply (Hend2 target); [now left | simpl; lia].
    - constructor; [simpl; lia | constructor].
    - simpl. split; [lia | exact I].
    - now rewrite Hl1.
    - lia. }
  apply (walk_entries_closed seg Hseg fuel _ 0) in W
    as (ps & -> & Hl & Hsnd & Hs & Hall & _); trivial.
  rewrite Hc0q in Hsnd.
  replace (origin_lsn / seg + 1 - 1) with (origin_lsn / seg) in Hsnd by lia.
  assert (Hsndp : forall p, In p ps -> origin_lsn / seg <= snd p).
  { intros p Hp. apply (in_map snd) in Hp. rewrite Hsnd in Hp.
    apply in_map_iff in Hp as (i & <- & _). lia. }
  rewrite Forall_forall in Hall.
  set (final := (target_tli, XLByteToPrevSeg seg target_lsn)).
  exists entries, origin, ps.
  split; [exact P|]. split; [exact F|].
  split; [rewrite map_app; reflexivity|].
  split; [exact Hsnd|].
  split; [|split; [|split]].
  - apply StronglySorted_app; trivial; [repeat constructor|].
    intros p q Hp [<- | []].
    destruct (Hall p Hp) as (h & Hin & Hf & Hcov).
    apply in_app_or in Hin as [Hin | [<- | []]].
    + left. simpl. rewrite Hf. specialize (Hmax h Hin). lia.
    + right. simpl. split; [exact Hf|].
      unfold covers in Hcov. apply andb_prop in Hcov as [_ Hcov].
      apply Z.ltb_lt in Hcov. simpl in Hcov.
      specialize (Hsndp p Hp).
      unfold XLByteToPrevSeg, wrap64. rewrite Z.mod_small by nia.
      assert (snd p + 1 <= (target_lsn - 1) / seg)
        by (apply Z.div_le_lower_bound; lia).
      lia.
  - apply Forall_forall. exact Hall.
  - apply Forall_app. split.
    + apply Forall_forall. intros p Hp.
      destruct (Hall p Hp) as (h & Hin & Hf & Hcov).
      specialize (Hsndp p Hp).
      rewrite Forall_forall in Hends', Hrange.
      specialize (Hends' h Hin).
      unfold covers in Hcov. apply andb_prop in Hcov as [_ Hcov].
      apply Z.ltb_lt in Hcov.
      split.
      * rewrite Hf. apply in_app_or in Hin as [Hin | [<- | []]];
          [now apply Hrange | exact Htli].
      * split; [lia|].
        assert (snd p + 1 <= 2 ^ 64 / seg)
          by (apply Z.div_le_lower_bound; lia).
        lia.
    + constructor; [|constructor]. simpl. split; trivial.
      now apply XLByteToPrevSeg_range.
  - rewrite Hl, Hc0 in Hreach. lia.
Qed.

(** ** No duplicate, no gap *)

Lemma pair_lt_compare a1 b1 a2 b2 :
  pair_lt (a1, b1) (a2, b2) -> compare_pair a1 b1 a2 b2 = Lt.
Proof.
  unfold pair_lt, compare_pair. simpl. intros [H | [-> H]].
  - apply Z.compare_lt_iff in H. now rewrite H.
  - rewrite Z.compare_refl. now apply Z.compare_lt_iff.
Qed.

Lemma string_compare_irrefl a : String.compare a a <> Lt.
Proof.
  intros H. pose proof (String.compare_antisym a a) as Ha.
  rewrite H in Ha. discriminate.
Qed.

(** X7: when the target and every switch point of the history lie at
    least one segment below 2^64, the rows of a call that returns are in
    strictly increasing order as strings; no segment is named twice, the
    last row included. *)
Theorem rows_strictly_increasing seg fuel origin_tli origin_lsn target_tli
    target_lsn history_buf rows :
  0 < seg -> (seg | 2 ^ 32) ->
  0 <= origin_lsn -> 0 <= target_tli < 2 ^ 32 -> target_lsn + seg < 2 ^ 64 ->
  (forall entries, parseTimeLineHistory history_buf = inr entries ->
                   Forall (fun e => end_ e + seg <= 2 ^ 64) entries) ->
  run (build_wal_segment_list seg fuel origin_tli origin_lsn
         target_tli target_lsn history_buf) = (rows, Returned tt) ->
  (forall i j a b,
      nth_error rows i = Some a -> nth_error rows j = Some b ->
      (i < j)%nat -> String.compare a b = Lt) /\
  NoDup rows.
Proof.
  intros Hseg Hdiv Ho Htli Ht Hends H.
  destruct (build_closed _ _ _ _ _ _ _ _ Hseg Hdiv Ho Htli Ht Hends H)
    as (entries & origin & ps & _ & _ & -> & _ & Hsorted & _ & Hrange & _).
  set (all := ps ++ [(target_tli, XLByteToPrevSeg seg target_lsn)]) in *.
  assert (Horder : forall i j a b,
             nth_error (map (name_of seg) all) i = Some a ->
             nth_error (map (name_of seg) all) j = Some b ->
             (i < j)%nat -> String.compare a b = Lt).
  { intros i j a b Hi Hj Hij. rewrite nth_error_map in Hi, Hj.
    destruct (nth_error all i) as [p|] eqn:Ep; [|discriminate].
    destruct (nth_error all j) as [q|] eqn:Eq; [|discriminate].
    injection Hi as <-. injection Hj as <-.
    rewrite Forall_forall in Hrange.
    destruct (Hrange p (nth_error_In _ _ Ep)) as [Hp1 Hp2].
    destruct (Hrange q (nth_error_In _ _ Eq)) as [Hq1 Hq2].
    pose proof (StronglySorted_nth pair_lt _ i j p q Hsorted Ep Eq Hij) as Hpq.
    unfold name_of. rewrite XLogFileName_compare by trivial.
    destruct p, q. now apply pair_lt_compare. }
  split; trivial.
  apply NoDup_nth_error. intros i j Hi Eij.
  destruct (nth_error (map (name_of seg) all) i) as [a|] eqn:Ea.
  2:{ apply nth_error_None in Ea. lia. }
  symmetry in Eij.
  destruct (Nat.lt_total i j) as [Hlt | [Heq | Hgt]]; trivial.
  - destruct (string_compare_irrefl a). exact (Horder i j a a Ea Eij Hlt).
  - destruct (string_compare_irrefl a). exact (Horder j i a a Eij Ea Hgt).
Qed.

Lemma rows_strictly_increasing_witness :
  (forall i j a b,
      nth_error rows_1_to_2 i = Some a -> nth_error rows_1_to_2 j = Some b ->
      (i < j)%nat -> String.compare a b = Lt) /\
  NoDup rows_1_to_2.
Proof.
  apply (rows_strictly_increasing MB16 3 1 0 2 83886080 history_of_2);
    try reflexivity; try (unfold MB16; lia).
  - exists 256. reflexivity.
  - intros entries [= <-]. repeat constructor; simpl; unfold MB16; lia.
Defined.

(** X8: when the origin is below the target, the target is at least one
    segment below 2^64 and no switch point of the history is above the
    target, the segment numbers read back from the rows of a call that
    returns are the consecutive numbers from the origin's segment
    [origin_lsn / seg] up to the segment of the byte before the target,
    [(target_lsn - 1) / seg], each once; the last row is on the target
    timeline. *)
Theorem rows_are_consecutive_segments seg fuel origin_tli origin_lsn
    target_tli target_lsn history_buf rows :
  0 < seg -> (seg | 2 ^ 32) ->
  0 <= origin_lsn < target_lsn -> 0 <= target_tli < 2 ^ 32 ->
  target_lsn + seg < 2 ^ 64 ->
  (forall entries, parseTimeLineHistory history_buf = inr entries ->
                   Forall (fun e => end_ e <= target_lsn) entries) ->
  run (build_wal_segment_list seg fuel origin_tli origin_lsn
         target_tli target_lsn history_buf) = (rows, Returned tt) ->
  map (name_segment seg) rows =
    map (fun i => origin_lsn / seg + Z.of_nat i) (seq 0 (List.length rows)) /\
  Z.of_nat (List.length rows) =
    (target_lsn - 1) / seg - origin_lsn / seg + 1 /\
  name_timeline (last rows EmptyString) = target_tli.
Proof.
  intros Hseg Hdiv Ho Htli Ht Hends H.
  assert (Hends' : forall entries,
             parseTimeLineHistory history_buf = inr entries ->
             Forall (fun e => end_ e + seg <= 2 ^ 64) entries).
  { intros entries P. eapply Forall_impl; [|exact (Hends entries P)].
    simpl. intros. lia. }
  destruct (build_closed _ _ _ _ _ _ _ _ Hseg Hdiv (proj1 Ho) Htli Ht Hends' H)
    as (entries & origin & ps & P & _ & -> & Hsnd & _ & Hall & Hrange & Hreach).
  specialize (Hends entries P).
  set (q0 := origin_lsn / seg) in *.
  set (n := List.length ps) in *.
  (* the last row names the segment that follows those of the loop *)
  assert (Hlow : seg * (q0 + Z.of_nat n) <= target_lsn - 1).
  { destruct (Nat.eq_dec n 0) as [Hn | Hn].
    - rewrite Hn. pose proof (Z.div_mod origin_lsn seg ltac:(lia)).
      pose proof (Z.mod_pos_bound origin_lsn seg Hseg).
      fold q0 in H0. lia.
    - assert (Hidx : (n - 1 < n)%nat) by lia.
      pose proof (f_equal (fun l => nth (n - 1) l 0) Hsnd) as Hlast.
      cbv beta in Hlast.
      rewrite (nth_indep (map snd ps) 0 (snd (0, 0))) in Hlast
        by (rewrite List.length_map; exact Hidx).
      rewrite map_nth in Hlast.
      rewrite (nth_indep _ 0 (q0 + Z.of_nat 0)) in Hlast
        by (rewrite List.length_map, length_seq; exact Hidx).
      rewrite (map_nth (fun i => q0 + Z.of_nat i)) in Hlast.
      rewrite seq_nth in Hlast by exact Hidx.
      rewrite Forall_forall in Hall.
      destruct (Hall (nth (n - 1) ps (0, 0)) (nth_In _ _ Hidx))
        as (h & Hin & _ & Hcov).
      rewrite Hlast in Hcov.
      unfold covers in Hcov. apply andb_prop in Hcov as [_ Hcov].
      apply Z.ltb_lt in Hcov.
      assert (end_ h <= target_lsn).
      { apply in_app_or in Hin as [Hin | [<- | []]]; [|simpl; lia].
        rewrite Forall_forall in Hends. now apply Hends. }
      assert (Z.of_nat (0 + (n - 1)) = Z.of_nat n - 1) by lia.
      nia. }
  assert (Hquot : (target_lsn - 1) / seg = q0 + Z.of_nat n).
  { symmetry.
    apply (Z.div_unique _ _ _ (target_lsn - 1 - seg * (q0 + Z.of_nat n)));
      lia. }
  assert (Hfinal : XLByteToPrevSeg seg target_lsn = q0 + Z.of_nat n).
  { unfold XLByteToPrevSeg, wrap64. now rewrite Z.mod_small by lia. }
  assert (Hback : forall l,
             Forall (fun p => 0 <= fst p < 2 ^ 32 /\
                              0 <= snd p < 2 ^ 64 / seg) l ->
             map (name_segment seg) (map (name_of seg) l) = map snd l).
  { intros l Hl. rewrite map_map. induction Hl as [|p l [Hp1 Hp2] _ IH];
      simpl; trivial.
    unfold name_of at 1.
    destruct (name_reads_back seg (fst p) (snd p)) as [_ ->]; trivial.
    now rewrite IH. }
  rewrite List.length_map, List.length_app. fold n. simpl.
  replace (n + 1)%nat with (S n) by lia.
  split; [|split].
  - rewrite Hback by exact Hrange.
    rewrite map_app, Hsnd, seq_S, map_app. simpl. now rewrite Hfinal.
  - rewrite Hquot. lia.
  - rewrite map_app. simpl. rewrite last_last. unfold name_of. simpl.
    apply Forall_app in Hrange as [_ Hrange].
    apply Forall_inv in Hrange as [Hf Hs]. simpl in Hf, Hs.
    now destruct (name_reads_back seg target_tli
                    (XLByteToPrevSeg seg target_lsn)) as [-> _].
Qed.

Lemma rows_are_consecutive_segments_witness :
  map (name_segment MB16) rows_1_to_2 =
    map (fun i => 0 / MB16 + Z.of_nat i) (seq 0 (List.length rows_1_to_2)) /\
  Z.of_nat (List.length rows_1_to_2) = (83886080 - 1) / MB16 - 0 / MB16 + 1 /\
  name_timeline (last rows_1_to_2 EmptyString) = 2.
Proof.
  apply (rows_are_consecutive_segments MB16 3 1 0 2 83886080 history_of_2);
    try reflexivity; try (unfold MB16; lia).
  - exists 256. reflexivity.
  - intros entries [= <-].
    constructor; [vm_compute; discriminate | constructor].
Defined.

(** ** When the call returns *)

(** After the checks the call is the loop followed by the last row. *)
Lemma build_after_checks seg fuel origin_tli origin_lsn target_tli target_lsn
    history_buf entries :
  parseTimeLineHistory history_buf = inr entries ->
  valid_call origin_tli origin_lsn target_tli target_lsn entries ->
  exists origin,
    find (is_origin origin_tli origin_lsn) entries = Some origin /\
    run (build_wal_segment_list seg fuel origin_tli origin_lsn
           target_tli target_lsn history_buf) =
    bind (walk_entries seg fuel
            (entries ++ [target_entry target_tli target_lsn origin])
            (next_segment_start seg origin_lsn))
         (fun _ => tuplestore_putvalues
                     (XLogFileName seg target_tli
                        (XLByteToPrevSeg seg target_lsn))) [].
Proof.
  intros P (H1 & H2 & last & origin & L & H3 & H4 & F).
  exists origin. split; trivial.
  unfold run, build_wal_segment_list, bind, check, lift, llast, find_origin.
  apply Z.ltb_ge in H1, H2, H4. apply Z.leb_gt in H3.
  rewrite H1, H2, P. simpl.
  destruct (rev entries) as [|last' tl]; [discriminate|].
  injection L as ->. simpl. rewrite H3, H4, F. reflexivity.
Qed.

Lemma build_returned_valid seg fuel origin_tli origin_lsn target_tli
    target_lsn history_buf rows :
  run (build_wal_segment_list seg fuel origin_tli origin_lsn
         target_tli target_lsn history_buf) = (rows, Returned tt) ->
  exists entries,
    parseTimeLineHistory history_buf = inr entries /\
    valid_call origin_tli origin_lsn target_tli target_lsn entries.
Proof.
  intros H. apply build_returned in H
    as (entries & last & origin & loop_rows & lsn & H1 & H2 & P & L & H3 &
        H4 & F & _).
  exists entries. split; trivial.
  repeat split; trivial. now exists last, origin.
Qed.

Section Termination.

Variable seg : Z.
Hypothesis seg_pos : 0 < seg.

(** The loop of one entry returns when the fuel covers the distance to
    the end of the entry. *)
Lemma emit_segments_returns h : forall n fuel lsn rows,
  (n < fuel)%nat ->
  end_ h + seg <= 2 ^ 64 -> lsn mod seg = 0 -> 0 < lsn ->
  end_ h - lsn <= Z.of_nat n * seg ->
  exists rows' lsn', emit_segments seg fuel h lsn rows = (rows', Returned lsn').
Proof.
  induction n as [|n IH]; intros fuel lsn rows Hf He Ha H0 Hd;
    (destruct fuel as [|fuel]; [lia|]); simpl;
    destruct (covers lsn h) eqn:C;
    try (now eexists; eexists).
  - unfold covers in C. apply andb_prop in C as [_ C].
    apply Z.ltb_lt in C. lia.
  - unfold covers in C. apply andb_prop in C as [_ C].
    apply Z.ltb_lt in C.
    unfold bind, tuplestore_putvalues.
    rewrite next_segment_start_step by (trivial; lia).
    destruct (aligned_step seg seg_pos lsn Ha) as [Ha' _].
    apply IH; trivial; lia.
Qed.

Lemma walk_entries_returns fuel entries : forall prev lsn rows,
  Forall (fun h => end_ h + seg <= 2 ^ 64 /\
                   end_ h <= Z.of_nat fuel * seg) entries ->
  (0 < fuel)%nat ->
  increasing_from prev (map tli entries) ->
  lsn mod seg = 0 -> 0 < lsn ->
  exists rows' lsn',
    walk_entries seg fuel entries lsn rows = (rows', Returned lsn').
Proof.
  induction entries as [|h rest IH]; simpl;
    intros prev lsn rows He Hf Hinc Ha H0.
  - now eexists; eexists.
  - apply Forall_cons_iff in He as [[Heh Hfh] He]. destruct Hinc as [_ Hinc].
    destruct (aligned_steps seg seg_pos lsn 0 Ha) as (_ & _ & Hlsn).
    assert (1 <= lsn / seg) by nia.
    destruct (emit_segments_returns h (fuel - 1) fuel lsn rows)
      as (rows1 & lsn1 & E); trivial; try lia.
    { replace (Z.of_nat (fuel - 1)) with (Z.of_nat fuel - 1) by lia. nia. }
    unfold bind. rewrite E.
    apply emit_segments_closed in E as (k & -> & _); trivial.
    destruct (aligned_steps seg seg_pos lsn (Z.of_nat k) Ha) as (Ha1 & _ & _).
    apply (IH (tli h)); trivial. lia.
Qed.

End Termination.

(** X9: the loop ends.  When the target and every switch point of the
    history lie at least one segment below 2^64, the call returns a list
    of rows (given enough fuel) exactly when origin and target are in
    order, the history is not empty, its last entry is on an older
    timeline than the target and ends at or below the target, and some
    entry on the origin's timeline holds the origin. *)
Theorem call_returns_iff_checks_pass seg origin_tli origin_lsn target_tli
    target_lsn history_buf entries :
  0 < seg -> 0 <= origin_lsn -> target_lsn + seg < 2 ^ 64 ->
  parseTimeLineHistory history_buf = inr entries ->
  Forall (fun e => end_ e + seg <= 2 ^ 64) entries ->
  (exists fuel rows,
      run (build_wal_segment_list seg fuel origin_tli origin_lsn
             target_tli target_lsn history_buf) = (rows, Returned tt)) <->
  valid_call origin_tli origin_lsn target_tli target_lsn entries.
Proof.
  intros Hseg Ho Ht P Hends. split.
  - intros (fuel & rows & H).
    apply build_returned_valid in H as (entries' & P' & Hv). congruence.
  - intros Hv.
    set (fuel := S (Z.to_nat (2 ^ 64 / seg))).
    assert (Hfuel : 2 ^ 64 < Z.of_nat fuel * seg).
    { unfold fuel. rewrite Nat2Z.inj_succ, Z2Nat.id
        by (apply Z.div_pos; lia).
      rewrite Z.mul_comm. apply Z.mul_succ_div_gt. lia. }
    clearbody fuel.
    destruct (build_after_checks seg fuel _ _ _ _ _ _ P Hv)
      as (origin & F & Hrun).
    destruct Hv as (H1 & H2 & last & origin' & L & H3 & H4 & F').
    set (target := target_entry target_tli target_lsn origin).
    destruct (walk_entries_returns seg Hseg fuel (entries ++ [target]) 0
                (next_segment_start seg origin_lsn) [])
      as (rows1 & lsn1 & W).
    + apply Forall_app. split.
      * eapply Forall_impl; [|exact Hends]. simpl. intros. lia.
      * constructor; [simpl; lia | constructor].
    + lia.
    + assert (Hinc : increasing_from 0 (map tli entries)).
      { unfold parseTimeLineHistory in P.
        apply parse_lines_inv in P as (new & -> & Hinc & _). exact Hinc. }
      destruct (rev entries) as [|x tl] eqn:R; [discriminate|].
      injection L as ->.
      assert (E : entries = rev tl ++ [last])
        by (rewrite <- (rev_involutive entries), R; reflexivity).
      rewrite E in *. rewrite !map_app in *. simpl in *.
      now apply increasing_from_snoc.
    + now apply next_segment_start_aligned.
    + rewrite next_segment_start_no_wrap by (trivial; lia).
      assert (0 <= origin_lsn / seg) by (apply Z.div_pos; lia). nia.
    + exists fuel. eexists. rewrite Hrun. unfold bind. fold target.
      rewrite W. unfold tuplestore_putvalues. reflexivity.
Qed.

Lemma call_returns_iff_checks_pass_witness :
  (exists fuel rows,
      run (build_wal_segment_list MB16 fuel 1 0 2 83886080 history_of_2) =
        (rows, Returned tt)) <->
  valid_call 1 0 2 83886080 [mkEntry 1 0 50331648].
Proof.
  apply (call_returns_iff_checks_pass MB16 1 0 2 83886080 history_of_2);
    try reflexivity; try (unfold MB16; lia).
  constructor; [vm_compute; discriminate | constructor].
Defined.

(** ** When the call never returns *)

Lemma aligned_below_top seg lsn :
  0 < seg -> (seg | 2 ^ 64) -> lsn mod seg = 0 -> lsn < 2 ^ 64 ->
  lsn <= 2 ^ 64 - seg.
Proof.
  intros Hseg [k Hk] Ha Hlt.
  pose proof (Z.div_mod lsn seg ltac:(lia)) as Hq. rewrite Ha in Hq.
  assert (lsn / seg < k) by nia.
  nia.
Qed.

Lemma next_segment_start_range seg lsn :
  0 < seg -> 0 <= next_segment_start seg lsn < 2 ^ 64.
Proof.
  intros Hseg. unfold next_segment_start, wrap64.
  pose proof (Z.mod_pos_bound (lsn + seg) (2 ^ 64) ltac:(lia)).
  pose proof (Z.mod_pos_bound ((lsn + seg) mod 2 ^ 64) seg Hseg).
  pose proof (Z.mod_le ((lsn + seg) mod 2 ^ 64) seg ltac:(lia) Hseg).
  lia.
Qed.

(** An entry that begins at 0 and ends in the last segment holds every
    boundary, also the boundary 0 that follows the last one. *)
Lemma emit_segments_never_leaves seg h fuel : forall lsn rows,
  0 < seg -> (seg | 2 ^ 64) ->
  begin h = 0 -> 2 ^ 64 - seg < end_ h ->
  lsn mod seg = 0 -> 0 <= lsn < 2 ^ 64 ->
  exists rows', emit_segments seg fuel h lsn rows = (rows', OutOfFuel).
Proof.
  intros lsn rows Hseg Hdiv Hb He. revert lsn rows.
  induction fuel as [|fuel IH]; simpl; intros lsn rows Ha Hr.
  - now eexists.
  - assert (C : covers lsn h = true).
    { unfold covers. rewrite Hb. apply andb_true_intro.
      pose proof (aligned_below_top seg lsn Hseg Hdiv Ha ltac:(lia)).
      split; [apply Z.leb_le | apply Z.ltb_lt]; lia. }
    rewrite C. unfold bind, tuplestore_putvalues.
    apply IH.
    + now apply next_segment_start_aligned.
    + now apply next_segment_start_range.
Qed.

(** X10: a history whose first entry ends in the last segment of the
    64-bit range makes every call that passes the checks loop for ever:
    whatever the fuel, the loop is still running when it is used up. *)
Theorem call_never_returns seg fuel origin_tli origin_lsn target_tli
    target_lsn history_buf first rest :
  0 < seg -> (seg | 2 ^ 64) ->
  parseTimeLineHistory history_buf = inr (first :: rest) ->
  valid_call origin_tli origin_lsn target_tli target_lsn (first :: rest) ->
  2 ^ 64 - seg < end_ first ->
  exists rows,
    run (build_wal_segment_list seg fuel origin_tli origin_lsn
           target_tli target_lsn history_buf) = (rows, OutOfFuel).
Proof.
  intros Hseg Hdiv P Hv Hend.
  destruct (build_after_checks seg fuel _ _ _ _ _ _ P Hv)
    as (origin & _ & ->).
  assert (Hb : begin first = 0).
  { unfold parseTimeLineHistory in P.
    apply parse_lines_inv in P as (new & E & _ & Hch & _).
    simpl in E. subst new. apply Hch. }
  destruct (emit_segments_never_leaves seg first fuel
              (next_segment_start seg origin_lsn) [])
    as (rows & E); trivial.
  - now apply next_segment_start_aligned.
  - now apply next_segment_start_range.
  - exists rows. cbn [app walk_entries]. unfold bind. now rewrite E.
Qed.

Lemma call_never_returns_witness :
  exists rows,
    run (build_wal_segment_list MB16 7 1 18446744073709551615
           2 18446744073709551615
           ("1" +++ TAB +++ "FFFFFFFF/FFFFFFFF" +++ LF)) = (rows, OutOfFuel).
Proof.
  apply (call_never_returns MB16 7 1 18446744073709551615
           2 18446744073709551615
           ("1" +++ TAB +++ "FFFFFFFF/FFFFFFFF" +++ LF)
           (mkEntry 1 0 18446744073709551615) []).
  - reflexivity.
  - exists (2 ^ 40). reflexivity.
  - reflexivity.
  - unfold valid_call. split; [lia|]. split; [lia|].
    exists (mkEntry 1 0 18446744073709551615),
           (mkEntry 1 0 18446744073709551615).
    repeat split; try reflexivity; simpl; lia.
  - reflexivity.
Defined.

(** ** What a returned list tells about the arguments *)

Lemma increasing_from_unique entries : forall prev h h',
  increasing_from prev (map tli entries) ->
  In h entries -> In h' entries -> tli h = tli h' -> h = h'.
Proof.
  induction entries as [|e rest IH]; simpl; intros prev h h' Hinc Hh Hh' Heq;
    [contradiction|].
  destruct Hinc as [_ Hinc].
  assert (Hgt : forall x, In x rest -> tli e < tli x).
  { intros x Hx. apply (increasing_from_In (map tli rest)); trivial.
    now apply in_map. }
  destruct Hh as [<- | Hh], Hh' as [<- | Hh']; trivial.
  - specialize (Hgt h' Hh'). lia.
  - specialize (Hgt h Hh). lia.
  - eapply IH; eauto.
Qed.

(** X11: a call can only return a list when the origin timeline is
    strictly older than the target timeline (and is not 0), and when the
    one history entry on the origin timeline holds the origin position
    between its begin and its end; with origin and target on the same
    timeline the call never returns a list. *)
Theorem returned_list_needs_older_origin seg fuel origin_tli origin_lsn
    target_tli target_lsn history_buf rows :
  run (build_wal_segment_list seg fuel origin_tli origin_lsn
         target_tli target_lsn history_buf) = (rows, Returned tt) ->
  0 < origin_tli < target_tli /\
  exists entries origin,
    parseTimeLineHistory history_buf = inr entries /\
    In origin entries /\ tli origin = origin_tli /\
    forall h, In h entries -> tli h = origin_tli ->
              h = origin /\ begin h <= origin_lsn <= end_ h.
Proof.
  intros H. apply build_returned in H
    as (entries & last & origin & loop_rows & lsn & _ & _ & P & L & Hlt &
        _ & F & _).
  assert (Hinc : increasing_from 0 (map tli entries)).
  { pose proof P as P'. unfold parseTimeLineHistory in P'.
    apply parse_lines_inv in P' as (new & -> & Hinc & _). exact Hinc. }
  apply find_some in F as [Hin Ho]. unfold is_origin in Ho.
  apply andb_prop in Ho as [Ho Ht]. apply andb_prop in Ho as [Hb He].
  apply Z.leb_le in Hb, He. apply Z.eqb_eq in Ht.
  assert (Hlast : In last entries).
  { apply in_rev. destruct (rev entries); [discriminate|].
    injection L as ->. now left. }
  assert (Hle : tli origin <= tli last).
  { destruct (rev entries) as [|x tl] eqn:R; [discriminate|].
    injection L as ->.
    assert (E : entries = rev tl ++ [last])
      by (rewrite <- (rev_involutive entries), R; reflexivity).
    rewrite E in Hin, Hinc.
    apply in_app_or in Hin as [Hin | [<- | []]]; [|lia].
    rewrite map_app in Hinc. simpl in Hinc.
    apply increasing_from_app in Hinc as [_ Hltl].
    specialize (Hltl (tli origin) (in_map tli _ _ Hin)). lia. }
  assert (Hpos : 0 < tli origin).
  { apply (increasing_from_In (map tli entries)); trivial.
    now apply in_map. }
  split; [lia|].
  exists entries, origin. repeat split; trivial.
  - eapply increasing_from_unique; eauto. congruence.
  - assert (h = origin)
      by (eapply increasing_from_unique; eauto; congruence).
    now subst.
  - assert (h = origin)
      by (eapply increasing_from_unique; eauto; congruence).
    now subst.
Qed.

Lemma returned_list_needs_older_origin_witness :
  0 < 1 < 2 /\
  exists entries origin,
    parseTimeLineHistory history_of_2 = inr entries /\
    In origin entries /\ tli origin = 1 /\
    forall h, In h entries -> tli h = 1 ->
              h = origin /\ begin h <= 0 <= end_ h.
Proof.
  apply (returned_list_needs_older_origin MB16 3 1 0 2 83886080 history_of_2
           rows_1_to_2).
  reflexivity.
Defined.

(** ** What an error tells about the arguments *)

Lemma parse_error_kind buffer e :
  parseTimeLineHistory buffer = inl e ->
  exists fline, e = MissingTimelineId fline \/ e = MissingSwitchPoint fline \/
                e = NonIncreasingTimeline fline.
Proof.
  unfold parseTimeLineHistory. intros H.
  apply parse_lines_failure in H as (_ & fline & _ & _ & _ & _ & _ & _ & He).
  now exists fline.
Qed.

(** X12: an error of [build_wal_segment_list] tells which check failed
    and that all the checks before it passed, in the order of the source:
    origin position, origin timeline, the history text, the timeline and
    then the end of its last entry, and the search for the origin. *)
Theorem error_tells_its_cause seg fuel origin_tli origin_lsn target_tli
    target_lsn history_buf rows e :
  run (build_wal_segment_list seg fuel origin_tli origin_lsn
         target_tli target_lsn history_buf) = (rows, Raised e) ->
  match e with
  | OriginNewerThanTarget a b =>
      a = origin_lsn /\ b = target_lsn /\ target_lsn < origin_lsn
  | OriginTimelineNewerThanTarget a b =>
      a = origin_tli /\ b = target_tli /\
      origin_lsn <= target_lsn /\ target_tli < origin_tli
  | MissingTimelineId _ | MissingSwitchPoint _ | NonIncreasingTimeline _ =>
      origin_lsn <= target_lsn /\ origin_tli <= target_tli /\
      parseTimeLineHistory history_buf = inl e
  | HistoryTimelineNotOlderThanTarget a b =>
      origin_lsn <= target_lsn /\ origin_tli <= target_tli /\
      exists entries last,
        parseTimeLineHistory history_buf = inr entries /\
        hd_error (rev entries) = Some last /\
        a = tli last /\ b = target_tli /\ target_tli <= tli last
  | HistoryEndNewerThanTarget a b =>
      origin_lsn <= target_lsn /\ origin_tli <= target_tli /\
      exists entries last,
        parseTimeLineHistory history_buf = inr entries /\
        hd_error (rev entries) = Some last /\
        tli last < target_tli /\
        a = end_ last /\ b = target_lsn /\ target_lsn < end_ last
  | OriginNotDirectParent =>
      origin_lsn <= target_lsn /\ origin_tli <= target_tli /\
      exists entries last,
        parseTimeLineHistory history_buf = inr entries /\
        hd_error (rev entries) = Some last /\
        tli last < target_tli /\ end_ last <= target_lsn /\
        forall h, In h entries ->
                  ~ (begin h <= origin_lsn <= end_ h /\ tli h = origin_tli)
  end.
Proof.
  unfold run, build_wal_segment_list. intros H.
  unfold bind at 1 in H. unfold check at 1 in H. unfold ereport, ret in H.
  destruct (target_lsn <? origin_lsn) eqn:C1.
  { injection H as _ <-. apply Z.ltb_lt in C1. auto. }
  apply Z.ltb_ge in C1.
  unfold bind at 1 in H. unfold check at 1 in H. unfold ereport, ret in H.
  destruct (target_tli <? origin_tli) eqn:C2.
  { injection H as _ <-. apply Z.ltb_lt in C2. auto. }
  apply Z.ltb_ge in C2.
  unfold bind at 1 in H. unfold lift, ereport, ret in H.
  destruct (parseTimeLineHistory history_buf) as [e'|entries] eqn:P.
  { injection H as _ <-.
    destruct (parse_error_kind _ _ P) as (fline & [-> | [-> | ->]]); auto. }
  unfold bind at 1 in H. unfold llast, null_dereference, ret in H.
  destruct (rev entries) as [|last tl] eqn:R; [discriminate|].
  unfold bind at 1 in H. unfold check at 1 in H. unfold ereport, ret in H.
  destruct (target_tli <=? tli last) eqn:C3.
  { injection H as _ <-. apply Z.leb_le in C3.
    repeat split; trivial. exists entries, last. rewrite R. auto. }
  apply Z.leb_gt in C3.
  unfold bind at 1 in H. unfold check at 1 in H. unfold ereport, ret in H.
  destruct (target_lsn <? end_ last) eqn:C4.
  { injection H as _ <-. apply Z.ltb_lt in C4.
    repeat split; trivial. exists entries, last. rewrite R. auto 7. }
  apply Z.ltb_ge in C4.
  unfold bind at 1 in H. unfold find_origin, ereport, ret in H.
  destruct (find (is_origin origin_tli origin_lsn) entries) as [origin|]
    eqn:F.
  - unfold bind at 1 in H.
    match type of H with
    | context [walk_entries ?s ?f ?es ?c ?r] =>
        destruct (walk_entries s f es c r) as [rows1 o1] eqn:W
    end.
    apply walk_entries_rows in W as [_ Ho1].
    destruct o1 as [lsn1|e1| |]; try discriminate.
    destruct Ho1 as [[? ?]|?]; discriminate.
  - injection H as _ <-. repeat split; trivial.
    exists entries, last. rewrite R. repeat split; trivial.
    intros h Hin [[Hb He] Ht].
    pose proof (find_none _ _ F h Hin) as Hn. unfold is_origin in Hn.
    apply Z.leb_le in Hb, He. apply Z.eqb_eq in Ht.
    rewrite Hb, He, Ht in Hn. discriminate.
Qed.

Lemma error_tells_its_cause_witness :
  0 <= 83886080 /\ 1 <= 2 /\
  exists entries last,
    parseTimeLineHistory history_of_3 = inr entries /\
    hd_error (rev entries) = Some last /\
    2 = tli last /\ 2 = 2 /\ 2 <= tli last.
Proof.
  exact (error_tells_its_cause MB16 3 1 0 2 83886080 history_of_3 []
           (HistoryTimelineNotOlderThanTarget 2 2) eq_refl).
Defined.

(** ** Names and what they name *)

(** X13: the timeline and the segment number can be read back from a
    segment name, so two names are equal only for the same timeline and
    the same segment; this holds for a 32-bit timeline and the segment
    number of any 64-bit position. *)
Theorem segment_names_read_back seg t1 s1 t2 s2 :
  0 < seg -> (seg | 2 ^ 32) ->
  0 <= t1 < 2 ^ 32 -> 0 <= s1 < 2 ^ 64 / seg ->
  0 <= t2 < 2 ^ 32 -> 0 <= s2 < 2 ^ 64 / seg ->
  name_timeline (XLogFileName seg t1 s1) = t1 /\
  name_segment seg (XLogFileName seg t1 s1) = s1 /\
  (XLogFileName seg t1 s1 = XLogFileName seg t2 s2 -> t1 = t2 /\ s1 = s2).
Proof.
  intros Hseg Hdiv Ht1 Hs1 Ht2 Hs2.
  destruct (name_reads_back seg t1 s1) as [T1 S1]; trivial.
  destruct (name_reads_back seg t2 s2) as [T2 S2]; trivial.
  split; [exact T1|]. split; [exact S1|].
  intros E. rewrite E in T1, S1. split; congruence.
Qed.

Lemma segment_names_read_back_witness :
  name_timeline (XLogFileName MB16 2 256) = 2 /\
  name_segment MB16 (XLogFileName MB16 2 256) = 256 /\
  (XLogFileName MB16 2 256 = XLogFileName MB16 1 4 -> 2 = 1 /\ 256 = 4).
Proof.
  apply (segment_names_read_back MB16 2 256 1 4);
    try (unfold MB16; lia);
    try (vm_compute; split; [discriminate | reflexivity]).
  exists 256. reflexivity.
Defined.

(** ** The remainder of a line *)

Lemma isspace_not_digit base c :
  isspace c = true -> digit_value base c = None.
Proof.
  unfold isspace, digit_value. intros H.
  assert (Hc : code c = 32 \/ 9 <= code c <= 13).
  { apply orb_true_iff in H as [H|H]; [apply Z.eqb_eq in H; auto|].
    apply andb_prop in H as [H1 H2]. apply Z.leb_le in H1, H2. auto. }
  destruct (Z.leb_spec 48 (code c)), (Z.leb_spec (code c) 57); simpl;
    try lia;
    destruct (base =? 16); simpl; trivial;
    destruct (Z.leb_spec 65 (code c)), (Z.leb_spec (code c) 70); simpl;
    try lia;
    destruct (Z.leb_spec 97 (code c)), (Z.leb_spec (code c) 102); simpl;
    trivial; lia.
Qed.

Lemma digits_append base c r s : forall acc n v s',
  digit_value base c = None ->
  Scanf.digits base s acc = (n, v, s') ->
  Scanf.digits base (s +++ String c r) acc = (n, v, s' +++ String c r).
Proof.
  induction s as [|x s IH]; intros acc n v s' Hc; cbn [Scanf.digits String.append].
  - intros [= <- <- <-]. now rewrite Hc.
  - destruct (digit_value base x) as [d|].
    + destruct (Scanf.digits base s (acc * base + d)) as [[n1 v1] s1] eqn:E.
      intros [= <- <- <-]. now rewrite (IH _ _ _ _ Hc E).
    + intros [= <- <- <-]. reflexivity.
Qed.

Lemma skip_space_append s t :
  Scanf.skip_space s <> EmptyString ->
  Scanf.skip_space (s +++ t) = Scanf.skip_space s +++ t.
Proof.
  induction s as [|x s IH]; simpl; intros H; [congruence|].
  destruct (isspace x); auto.
Qed.

Lemma sign_append x s t :
  Scanf.sign (String x s +++ t) =
  (fst (Scanf.sign (String x s)), snd (Scanf.sign (String x s)) +++ t).
Proof.
  destruct x as [[] [] [] [] [] [] [] []]; reflexivity.
Qed.

Lemma space_is_not_x c :
  isspace c = true -> (code c =? 120) || (code c =? 88) = false.
Proof.
  unfold isspace. intros Hc.
  destruct (Z.eqb_spec (code c) 120), (Z.eqb_spec (code c) 88),
    (Z.eqb_spec (code c) 32), (Z.leb_spec 9 (code c)),
    (Z.leb_spec (code c) 13); simpl in *; trivial; try lia;
    discriminate.
Qed.

Lemma hex_prefix_append s c r :
  isspace c = true ->
  Scanf.hex_prefix (s +++ String c r) = Scanf.hex_prefix s +++ String c r.
Proof.
  intros Hc. destruct s as [|a [|x s]].
  - destruct c as [[] [] [] [] [] [] [] []]; try reflexivity;
      vm_compute in Hc; discriminate.
  - destruct a as [[] [] [] [] [] [] [] []]; try reflexivity.
    cbn [String.append Scanf.hex_prefix].
    now rewrite (space_is_not_x c Hc).
  - destruct a as [[] [] [] [] [] [] [] []]; try reflexivity.
    cbn [String.append Scanf.hex_prefix].
    destruct ((code x =? 120) || (code x =? 88)); reflexivity.
Qed.

Lemma unsigned_append base s v rest c r :
  isspace c = true ->
  Scanf.unsigned base s = Some (v, rest) ->
  Scanf.unsigned base (s +++ String c r) = Some (v, rest +++ String c r).
Proof.
  intros Hc. unfold Scanf.unsigned.
  destruct (Scanf.skip_space s) as [|x s0] eqn:K.
  { simpl. destruct (base =? 16); simpl; discriminate. }
  rewrite skip_space_append by (rewrite K; discriminate).
  rewrite K, sign_append.
  destruct (Scanf.sign (String x s0)) as [neg s1]. cbn [fst snd].
  replace (if base =? 16 then Scanf.hex_prefix (s1 +++ String c r)
           else s1 +++ String c r)
    with ((if base =? 16 then Scanf.hex_prefix s1 else s1) +++ String c r)
    by (destruct (base =? 16); [now rewrite hex_prefix_append | trivial]).
  destruct (Scanf.digits base _ 0) as [[n v'] rest'] eqn:D.
  rewrite (digits_append base c r _ _ _ _ _ (isspace_not_digit base c Hc) D).
  destruct n; [discriminate|]. now intros [= <- <-].
Qed.

Lemma unsigned_not_empty base s v rest :
  Scanf.unsigned base s = Some (v, rest) ->
  Scanf.skip_space s <> EmptyString.
Proof.
  unfold Scanf.unsigned. intros H K. rewrite K in H. simpl in H.
  destruct (base =? 16); simpl in H; discriminate.
Qed.

Lemma skip_space_twice s :
  Scanf.skip_space (Scanf.skip_space s) = Scanf.skip_space s.
Proof.
  induction s as [|x s IH]; simpl; trivial.
  destruct (isspace x) eqn:E; trivial. simpl. now rewrite E.
Qed.

Lemma sscanf_append fline c r t hi lo :
  isspace c = true ->
  sscanf fline = ThreeFields t hi lo ->
  sscanf (fline +++ String c r) = ThreeFields t hi lo.
Proof.
  intros Hc. unfold sscanf.
  destruct (Scanf.unsigned 10 fline) as [[t' s1]|] eqn:U1; [|discriminate].
  rewrite (unsigned_append _ _ _ _ c r Hc U1).
  destruct (Scanf.unsigned 16 (Scanf.skip_space s1)) as [[hi' s2]|] eqn:U2;
    [|discriminate].
  pose proof (unsigned_not_empty _ _ _ _ U2) as K.
  rewrite skip_space_twice in K.
  rewrite (skip_space_append _ _ K), (unsigned_append _ _ _ _ c r Hc U2).
  destruct s2 as [|y s2]; [discriminate|].
  cbn [String.append Scanf.literal].
  destruct (Ascii.eqb "/" y); [|discriminate].
  destruct (Scanf.unsigned 16 s2) as [[lo' s4]|] eqn:U3; [|discriminate].
  now rewrite (unsigned_append _ _ _ _ c r Hc U3).
Qed.

Lemma is_comment_append fline t :
  is_comment fline = false -> is_comment (fline +++ t) = false.
Proof.
  unfold is_comment. intros H.
  destruct (Scanf.skip_space fline) as [|x s] eqn:K; [discriminate|].
  rewrite skip_space_append, K by (rewrite K; discriminate). exact H.
Qed.

Lemma parse_line_append lasttli prevend fline c r entry :
  isspace c = true ->
  parse_line lasttli prevend fline = Parsed entry ->
  parse_line lasttli prevend (fline +++ String c r) = Parsed entry.
Proof.
  intros Hc. unfold parse_line.
  destruct (is_comment fline) eqn:C; [discriminate|].
  rewrite (is_comment_append _ _ C).
  destruct (sscanf fline) as [|t|t hi|t hi lo] eqn:S;
    [simpl; discriminate ..|].
  rewrite (sscanf_append _ c r _ _ _ Hc S).
  change (nfields (ThreeFields t hi lo)) with 3.
  change (3 <? 1) with false. change (negb (3 =? 3)) with false.
  cbv iota. destruct (t <=? lasttli); [discriminate | trivial].
Qed.

Lemma parse_line_not_skipped lasttli prevend fline :
  is_comment fline = false -> parse_line lasttli prevend fline <> Skipped.
Proof.
  unfold parse_line. intros ->.
  destruct (sscanf fline) as [|t|t hi|t hi lo]; simpl; try discriminate.
  destruct (t <=? lasttli); discriminate.
Qed.

Lemma parse_lines_longer_line fline c r post pre :
  isspace c = true -> is_comment fline = false ->
  forall lasttli prevend acc entries,
    parse_lines (pre ++ fline :: post) lasttli prevend acc = inr entries ->
    parse_lines (pre ++ (fline +++ String c r) :: post) lasttli prevend acc
    = inr entries.
Proof.
  intros Hc C. induction pre as [|x pre IH]; simpl; intros lasttli prevend acc entries.
  - destruct (parse_line lasttli prevend fline) as [|e|entry] eqn:E.
    + now apply parse_line_not_skipped in E.
    + discriminate.
    + now rewrite (parse_line_append _ _ _ c r _ Hc E).
  - destruct (parse_line lasttli prevend x); auto.
Qed.

(** X14: the remainder of a line is ignored.  When a history text
    parses, text added to the end of one of its data lines, after a white
    space character, changes nothing: the entries are the same. *)
Theorem rest_of_line_is_ignored buffer buffer' pre fline post c r entries :
  isspace c = true -> is_comment fline = false ->
  split_lines buffer = pre ++ fline :: post ->
  split_lines buffer' = pre ++ (fline +++ String c r) :: post ->
  parseTimeLineHistory buffer = inr entries ->
  parseTimeLineHistory buffer' = inr entries.
Proof.
  unfold parseTimeLineHistory. intros Hc C -> ->.
  now apply parse_lines_longer_line.
Qed.

Lemma rest_of_line_is_ignored_witness :
  parseTimeLineHistory
    ("1" +++ TAB +++ "0/3000000" +++ TAB +++ "no recovery target specified"
     +++ LF +++ "2" +++ TAB +++ "0/5000000" +++ LF) =
  inr [ {| tli := 1; begin := 0; end_ := 50331648 |};
        {| tli := 2; begin := 50331648; end_ := 83886080 |} ].
Proof.
  apply (rest_of_line_is_ignored
           ("1" +++ TAB +++ "0/3000000" +++ LF +++
            "2" +++ TAB +++ "0/5000000" +++ LF)
           _ [] ("1" +++ TAB +++ "0/3000000")
           ["2" +++ TAB +++ "0/5000000"; EmptyString]
           (ascii_of_nat 9) "no recovery target specified");
    reflexivity.
Defined.

(** * The rows of every call that returns *)

(** ** One entry, from any boundary *)

Lemma StronglySorted_weaken {A} (R1 R2 : A -> A -> Prop) (P : A -> Prop) l :
  (forall a b, P a -> P b -> R1 a b -> R2 a b) ->
  Forall P l -> StronglySorted R1 l -> StronglySorted R2 l.
Proof.
  intros HR HP HS. induction HS as [|a l HS IH Ha]; constructor.
  - apply IH. now inversion HP.
  - inversion HP as [|? ? Pa Pl]; subst.
    rewrite Forall_forall in *. intros b Hb. auto.
Qed.

Lemma StronglySorted_map {A B} (R : B -> B -> Prop) (f : A -> B) l :
  StronglySorted (fun a b => R (f a) (f b)) l ->
  StronglySorted R (map f l).
Proof.
  induction 1 as [|a l HS IH Ha]; simpl; constructor; trivial.
  rewrite Forall_forall in *. intros b Hb.
  apply in_map_iff in Hb as (x & <- & Hx). auto.
Qed.

Section Wrapping.

Variable seg : Z.
Hypothesis seg_pos : 0 < seg.
Hypothesis seg_div : (seg | 2 ^ 32).

Lemma last_segment_end :
  seg * (last_segment seg + 1) = 2 ^ 64 /\ 0 < last_segment seg.
Proof.
  destruct seg_div as [k Hk]. unfold last_segment.
  assert (E : 2 ^ 64 = (2 ^ 32 * k) * seg)
    by (change (2 ^ 64) with (2 ^ 32 * 2 ^ 32); rewrite Hk at 2; ring).
  rewrite E, Z.div_mul by lia. nia.
Qed.

Lemma XLByteToPrevSeg_zero : XLByteToPrevSeg seg 0 = last_segment seg.
Proof.
  destruct last_segment_end as [E _].
  unfold XLByteToPrevSeg, wrap64. change ((0 - 1) mod 2 ^ 64) with (2 ^ 64 - 1).
  symmetry. apply (Z.div_unique _ _ _ (seg - 1)); lia.
Qed.

Lemma next_segment_start_cases c :
  c mod seg = 0 -> 0 <= c < 2 ^ 64 ->
  (c + seg < 2 ^ 64 /\ next_segment_start seg c = c + seg) \/
  (c = 2 ^ 64 - seg /\ next_segment_start seg c = 0).
Proof.
  intros Ha Hc.
  pose proof (aligned_below_top seg c seg_pos (divides_2_64 seg seg_div) Ha
                ltac:(lia)) as Hle.
  destruct (Z.eq_dec c (2 ^ 64 - seg)) as [-> | Hne].
  - right. split; trivial. unfold next_segment_start, wrap64.
    replace (2 ^ 64 - seg + seg) with (2 ^ 64) by lia.
    rewrite Z.mod_same by lia. now rewrite Z.mod_0_l by lia.
  - left. split; [lia|]. rewrite next_segment_start_no_wrap by lia.
    pose proof (Z.div_mod c seg ltac:(lia)). lia.
Qed.

(** An entry that holds the boundary 0 and ends in the last segment
    holds every boundary: the loop does not leave it. *)
Lemma emit_segments_stays h fuel : forall lsn rows,
  begin h <= 0 -> 2 ^ 64 - seg < end_ h ->
  lsn mod seg = 0 -> 0 <= lsn < 2 ^ 64 ->
  exists rows', emit_segments seg fuel h lsn rows = (rows', OutOfFuel).
Proof.
  intros lsn rows Hb He. revert lsn rows.
  induction fuel as [|fuel IH]; simpl; intros lsn rows Ha Hr.
  - now eexists.
  - assert (C : covers lsn h = true).
    { unfold covers. apply andb_true_intro.
      pose proof (aligned_below_top seg lsn seg_pos
                    (divides_2_64 seg seg_div) Ha ltac:(lia)).
      split; [apply Z.leb_le | apply Z.ltb_lt]; lia. }
    rewrite C. unfold bind, tuplestore_putvalues.
    apply IH.
    + now apply next_segment_start_aligned.
    + now apply next_segment_start_range.
Qed.

(** The rows of one entry, from a boundary above 0: the segments that
    end at the boundaries the entry holds, in rising order; none is the
    last segment. *)
Lemma emit_from_boundary h fuel : forall c rows rows' c',
  c mod seg = 0 -> 0 < c < 2 ^ 64 ->
  emit_segments seg fuel h c rows = (rows', Returned c') ->
  exists segs,
    rows' = rows ++ map (XLogFileName seg (tli h)) segs /\
    StronglySorted Z.lt segs /\
    Forall (fun s => c / seg - 1 <= s < last_segment seg /\
                     (s + 1) * seg < end_ h) segs /\
    c' mod seg = 0 /\ 0 <= c' < 2 ^ 64.
Proof.
  destruct last_segment_end as [Etop _].
  induction fuel as [|fuel IH]; simpl; intros c rows rows' c' Ha Hc H;
    [discriminate|].
  destruct (covers c h) eqn:C.
  - unfold bind, tuplestore_putvalues in H.
    rewrite (XLByteToPrevSeg_on_boundary seg seg_pos c) in H by (trivial; lia).
    pose proof (Z.div_mod c seg ltac:(lia)) as Hq. rewrite Ha in Hq.
    unfold covers in C. apply andb_prop in C as [Cb Ce].
    apply Z.leb_le in Cb. apply Z.ltb_lt in Ce.
    pose proof (aligned_below_top seg c seg_pos (divides_2_64 seg seg_div) Ha
                  ltac:(lia)) as Hle.
    assert (Hs0 : c / seg - 1 < last_segment seg /\
                  (c / seg - 1 + 1) * seg < end_ h) by (split; nia).
    destruct (next_segment_start_cases c Ha ltac:(lia)) as [[Hlt E] | [Hc0 E]];
      rewrite E in H.
    + destruct (aligned_step seg seg_pos c Ha) as [Ha1 Hq1].
      apply IH in H as (segs & -> & Hs & Hall & Ha' & Hc'); trivial; [|lia].
      exists (c / seg - 1 :: segs). rewrite <- app_assoc.
      cbn [map app]. split; [reflexivity|].
      split; [|split; [|split]]; trivial.
      * constructor; [exact Hs|]. eapply Forall_impl; [|exact Hall].
        cbv beta. intros s [? _]. lia.
      * constructor; [lia|]. eapply Forall_impl; [|exact Hall].
        simpl. intros s [? ?]. lia.
    + destruct (covers 0 h) eqn:C0.
      * unfold covers in C0. apply andb_prop in C0 as [C0 _].
        apply Z.leb_le in C0.
        destruct (emit_segments_stays h fuel 0
                    (rows ++ [XLogFileName seg (tli h) (c / seg - 1)]) C0
                    ltac:(lia) (Z.mod_0_l seg ltac:(lia)) ltac:(lia))
          as [rows'' E'].
        rewrite E' in H. discriminate.
      * destruct fuel as [|fuel]; [discriminate|]. simpl in H.
        rewrite C0 in H. injection H as <- <-.
        exists [c / seg - 1]. split; [reflexivity|].
        split; [repeat constructor|].
        split; [repeat constructor; lia|].
        split; [apply Z.mod_0_l; lia | lia].
  - injection H as <- <-. exists []. simpl. rewrite app_nil_r.
    repeat split; trivial; try constructor; lia.
Qed.

(** The rows of one entry, from any boundary.  The boundary 0 gives
    the last segment first, and then the entry ends below the last
    segment, or the loop would not leave it. *)
Lemma emit_from_any h fuel c rows rows' c' :
  c mod seg = 0 -> 0 <= c < 2 ^ 64 ->
  emit_segments seg fuel h c rows = (rows', Returned c') ->
  exists segs,
    rows' = rows ++ map (XLogFileName seg (tli h)) segs /\
    StronglySorted (fun a b => in_order seg (tli h, a) (tli h, b)) segs /\
    Forall (fun s => 0 <= s <= last_segment seg /\
                     (s < last_segment seg -> (s + 1) * seg < end_ h) /\
                     (s = last_segment seg -> 0 < end_ h <= 2 ^ 64 - seg))
           segs /\
    c' mod seg = 0 /\ 0 <= c' < 2 ^ 64.
Proof.
  destruct last_segment_end as [Etop Htop].
  intros Ha Hc H.
  assert (Hfrom : forall x rows0 rows1 x1,
             x mod seg = 0 -> 0 < x < 2 ^ 64 ->
             emit_segments seg fuel h x rows0 = (rows1, Returned x1) ->
             exists segs,
               rows1 = rows0 ++ map (XLogFileName seg (tli h)) segs /\
               StronglySorted (fun a b => in_order seg (tli h, a) (tli h, b))
                 segs /\
               Forall (fun s => 0 <= s < last_segment seg /\
                                (s + 1) * seg < end_ h) segs /\
               x1 mod seg = 0 /\ 0 <= x1 < 2 ^ 64).
  { intros x rows0 rows1 x1 Hax Hx Hrun.
    apply emit_from_boundary in Hrun as (segs & -> & Hs & Hall & Ha' & Hc');
      trivial.
    assert (0 <= x / seg - 1)
      by (pose proof (Z.div_mod x seg ltac:(lia)); nia).
    exists segs. repeat split; trivial; try lia.
    - apply (StronglySorted_weaken Z.lt _
               (fun s => s < last_segment seg) segs); trivial.
      + intros a b Pa _ Hab. right. cbn [fst snd]. split; [reflexivity|]. left. lia.
      + eapply Forall_impl; [|exact Hall]. cbv beta. intros s [? _]. lia.
    - eapply Forall_impl; [|exact Hall]. cbv beta. intros s [? ?].
      split; [lia | trivial]. }
  destruct (Z.eq_dec c 0) as [-> | Hne].
  - destruct fuel as [|fuel]; [discriminate|].
    destruct (covers 0 h) eqn:C0.
    + pose proof C0 as C0'. unfold covers in C0'.
      apply andb_prop in C0' as [Cb Ce].
      apply Z.leb_le in Cb. apply Z.ltb_lt in Ce.
      assert (He : end_ h <= 2 ^ 64 - seg).
      { destruct (Z_le_gt_dec (end_ h) (2 ^ 64 - seg)) as [|Hgt]; trivial.
        destruct (emit_segments_stays h (S fuel) 0 rows Cb ltac:(lia) Ha Hc)
          as [rows'' E'].
        rewrite E' in H. discriminate. }
      simpl in H. rewrite C0 in H.
      unfold bind, tuplestore_putvalues in H.
      rewrite XLByteToPrevSeg_zero in H.
      destruct (next_segment_start_cases 0 Ha Hc) as [[_ E] | [E _]];
        [|destruct seg_div as [k Hk]; nia].
      rewrite E in H. simpl (0 + seg) in H.
      destruct fuel as [|fuel]; [discriminate|].
      assert (Hfrom' : forall rows0 rows1 x1,
                 emit_segments seg (S fuel) h seg rows0 =
                   (rows1, Returned x1) ->
                 exists segs,
                   rows1 = rows0 ++ map (XLogFileName seg (tli h)) segs /\
                   StronglySorted
                     (fun a b => in_order seg (tli h, a) (tli h, b)) segs /\
                   Forall (fun s => 0 <= s < last_segment seg /\
                                    (s + 1) * seg < end_ h) segs /\
                   x1 mod seg = 0 /\ 0 <= x1 < 2 ^ 64).
      { intros rows0 rows1 x1 Hrun.
        apply emit_from_boundary in Hrun
          as (segs & -> & Hs & Hall & Ha' & Hc');
          [|apply Z_mod_same_full | destruct seg_div as [k Hk]; nia].
        rewrite Z.div_same in Hall by lia.
        exists segs. repeat split; trivial; try lia.
        - apply (StronglySorted_weaken Z.lt _
                   (fun s => s < last_segment seg) segs); trivial.
          + intros a b Pa _ Hab. right. cbn [fst snd]. split; [reflexivity|]. left. lia.
          + eapply Forall_impl; [|exact Hall]. cbv beta. intros s [? _]. lia. }
      apply Hfrom' in H as (segs & -> & Hs & Hall & Ha' & Hc').
      exists (last_segment seg :: segs). rewrite <- app_assoc.
      cbn [map app]. split; [reflexivity|].
      split; [|split; [|split]]; trivial.
      * constructor; [exact Hs|]. eapply Forall_impl; [|exact Hall].
        cbv beta. intros s [? _]. right. cbn [fst snd].
        split; [reflexivity|]. right. lia.
      * constructor; [lia|]. eapply Forall_impl; [|exact Hall].
        cbv beta. intros s [? ?]. lia.
    + simpl in H. rewrite C0 in H. injection H as <- <-.
      exists []. cbn [map]. rewrite app_nil_r.
      repeat split; trivial; try constructor; lia.
  - apply Hfrom in H as (segs & -> & Hs & Hall & Ha' & Hc'); trivial;
      [|lia].
    exists segs. repeat split; trivial; try lia.
    eapply Forall_impl; [|exact Hall]. cbv beta. intros s [? ?]. lia.
Qed.

End Wrapping.

(** ** All entries, and the final row *)

Section WrappingWalk.

Variable seg : Z.
Hypothesis seg_pos : 0 < seg.
Hypothesis seg_div : (seg | 2 ^ 32).

Lemma walk_from_any fuel entries : forall prev c rows rows' c',
  increasing_from prev (map tli entries) ->
  c mod seg = 0 -> 0 <= c < 2 ^ 64 ->
  walk_entries seg fuel entries c rows = (rows', Returned c') ->
  exists ps,
    rows' = rows ++ map (name_of seg) ps /\
    StronglySorted (in_order seg) ps /\
    Forall (fun p => exists h,
                In h entries /\ fst p = tli h /\
                0 <= snd p <= last_segment seg /\
                (snd p < last_segment seg -> (snd p + 1) * seg < end_ h) /\
                (snd p = last_segment seg -> 0 < end_ h <= 2 ^ 64 - seg))
           ps.
Proof.
  induction entries as [|h rest IH]; cbn [walk_entries map];
    intros prev c rows rows' c' Hinc Ha Hc H.
  - injection H as <- _. exists []. cbn [map]. rewrite app_nil_r.
    repeat split; constructor.
  - destruct Hinc as [_ Hinc].
    run_bind H as rows1 c1 E.
    apply (emit_from_any seg seg_pos seg_div) in E
      as (segs & -> & Hs & Hall & Ha1 & Hc1); trivial.
    apply (IH (tli h)) in H as (ps2 & -> & Hs2 & Hall2); trivial.
    exists (map (pair (tli h)) segs ++ ps2).
    rewrite map_app, map_map, app_assoc.
    split; [reflexivity|]. split.
    + apply StronglySorted_app; trivial.
      * now apply StronglySorted_map.
      * intros p q Hp Hq. apply in_map_iff in Hp as (s & <- & _).
        rewrite Forall_forall in Hall2.
        destruct (Hall2 q Hq) as (h' & Hin' & Hf & _).
        left. cbn [fst]. rewrite Hf.
        apply (increasing_from_In (map tli rest)); trivial.
        now apply in_map.
    + apply Forall_app. split.
      * apply Forall_forall. intros p Hp.
        apply in_map_iff in Hp as (s & <- & Hin).
        rewrite Forall_forall in Hall. exists h. cbn [fst snd].
        split; [now left|]. split; [reflexivity|]. now apply Hall.
      * eapply Forall_impl; [|exact Hall2]. cbv beta.
        intros p (h' & Hin' & Hp). exists h'. split; [now right | exact Hp].
Qed.

End WrappingWalk.

(** The rows of a call that returns, as pairs. *)
Lemma rows_are_pairs_in_order seg fuel origin_tli origin_lsn target_tli
    target_lsn history_buf rows :
  0 < seg -> (seg | 2 ^ 32) ->
  0 <= origin_lsn -> target_lsn < 2 ^ 64 -> 0 <= target_tli < 2 ^ 32 ->
  run (build_wal_segment_list seg fuel origin_tli origin_lsn
         target_tli target_lsn history_buf) = (rows, Returned tt) ->
  exists pairs,
    rows = map (name_of seg) pairs /\
    pairs <> [] /\
    StronglySorted (in_order seg) pairs /\
    Forall (fun p => 0 <= fst p < 2 ^ 32 /\ 0 <= snd p < 2 ^ 64 / seg) pairs.
Proof.
  intros Hseg Hdiv Ho Ht Htli H.
  pose proof (divides_2_64 seg Hdiv) as Hdiv64.
  destruct (last_segment_end seg Hseg Hdiv) as [Etop Htop].
  apply build_returned in H
    as (entries & last & origin & loop_rows & lsn & Hlsn & _ & P & L & Hlt &
        Hle & F & W & ->).
  pose proof (parsed_timelines_range _ _ P) as Hrange.
  assert (Hinc : increasing_from 0 (map tli entries)).
  { unfold parseTimeLineHistory in P.
    apply parse_lines_inv in P as (new & -> & Hinc & _). exact Hinc. }
  assert (Hsplit : exists front, entries = front ++ [last]).
  { destruct (rev entries) as [|x tl] eqn:R; [discriminate|].
    injection L as ->. exists (rev tl).
    rewrite <- (rev_involutive entries), R. reflexivity. }
  destruct Hsplit as [front ->].
  assert (Hmax : forall h, In h (front ++ [last]) -> tli h <= tli last).
  { intros h Hin. apply in_app_or in Hin as [Hin | [<- | []]]; [|lia].
    rewrite map_app in Hinc. cbn [map] in Hinc.
    apply increasing_from_app in Hinc as [_ Hltl].
    specialize (Hltl (tli h) (in_map tli _ _ Hin)). lia. }
  set (target := target_entry target_tli target_lsn origin) in *.
  apply (walk_from_any seg Hseg Hdiv fuel _ 0) in W
    as (ps & -> & Hs & Hall).
  - set (segT := XLByteToPrevSeg seg target_lsn).
    pose proof (XLByteToPrevSeg_range seg target_lsn Hseg Hdiv64) as HsegT.
    fold segT in HsegT.
    rewrite Forall_forall in Hall.
    exists (ps ++ [(target_tli, segT)]). rewrite map_app. cbn [map app].
    split; [reflexivity|]. split; [|split].
    + intros Hnil. apply app_eq_nil in Hnil as [_ Hnil]. discriminate.
    + apply StronglySorted_app; trivial.
      * repeat constructor.
      * intros p q Hp [<- | []].
        destruct (Hall p Hp) as (h & Hin & Hf & Hsnd & Hlow & Hhigh).
        apply in_app_or in Hin as [Hin | [<- | []]].
        -- left. cbn [fst]. rewrite Hf. specialize (Hmax h Hin). lia.
        -- right. cbn [fst snd]. split; [exact Hf|].
           unfold target, target_entry in Hlow, Hhigh.
           cbn [end_] in Hlow, Hhigh. unfold last_segment in *.
           assert (Hprev : 0 < target_lsn -> segT = (target_lsn - 1) / seg).
           { intros Hpos. unfold segT, XLByteToPrevSeg, wrap64.
             now rewrite Z.mod_small by lia. }
           destruct (Z.eq_dec (snd p) (2 ^ 64 / seg - 1)) as [Etopp | Hne].
           ++ right. split; trivial. specialize (Hhigh Etopp).
              rewrite Hprev by lia.
              apply Z.div_lt_upper_bound; lia.
           ++ left. split; [lia|].
              assert (Hb : (snd p + 1) * seg < target_lsn)
                by (apply Hlow; lia).
              rewrite Hprev by nia.
              apply Z.div_le_lower_bound; nia.
    + apply Forall_app. split.
      * apply Forall_forall. intros p Hp.
        destruct (Hall p Hp) as (h & Hin & Hf & Hsnd & _).
        unfold last_segment in Hsnd.
        split; [|lia]. rewrite Hf.
        apply in_app_or in Hin as [Hin | [<- | []]]; [|exact Htli].
        rewrite Forall_forall in Hrange. now apply Hrange.
      * constructor; [|constructor]. cbn [fst snd]. split; trivial.
  - rewrite !map_app in *. cbn [map] in *.
    now apply increasing_from_snoc.
  - apply next_segment_start_aligned. trivial.
  - now apply next_segment_start_range.
Qed.

(** C5, amended: a call that returns has stored at least one row.  When
    the segment size divides 2^32 and the arguments are in the range of
    their types, of two rows on the same timeline the segment number
    read back from the later one is not below the number read back from
    the earlier one, unless the earlier row names the last segment of
    the 64-bit range, 2^64 / seg - 1: then the later number is lower.
    (The loop stores that name when its cursor has wrapped around to
    0.) *)
Theorem rows_in_order_unless_wrapped seg fuel origin_tli origin_lsn
    target_tli target_lsn history_buf rows :
  run (build_wal_segment_list seg fuel origin_tli origin_lsn
         target_tli target_lsn history_buf) = (rows, Returned tt) ->
  rows <> [] /\
  (0 < seg -> (seg | 2 ^ 32) ->
   0 <= origin_lsn -> target_lsn < 2 ^ 64 -> 0 <= target_tli < 2 ^ 32 ->
   forall i j a b,
     nth_error rows i = Some a -> nth_error rows j = Some b ->
     (i < j)%nat -> name_timeline a = name_timeline b ->
     (name_segment seg a <> last_segment seg ->
      name_segment seg a <= name_segment seg b) /\
     (name_segment seg a = last_segment seg ->
      name_segment seg b < name_segment seg a)).
Proof.
  intros H. split.
  { apply build_returned in H
      as (entries & last & origin & loop_rows & lsn & _ & _ & _ & _ & _ &
          _ & _ & _ & ->).
    intros Hnil. apply app_eq_nil in Hnil as [_ Hnil]. discriminate. }
  intros Hseg Hdiv Ho Ht Htli.
  destruct (rows_are_pairs_in_order _ _ _ _ _ _ _ _ Hseg Hdiv Ho Ht Htli H)
    as (pairs & -> & Hne & Hsorted & Hrange).
  intros i j a b Hi Hj Hij Heq.
  rewrite nth_error_map in Hi, Hj.
  destruct (nth_error pairs i) as [p|] eqn:Ep; [|discriminate].
  destruct (nth_error pairs j) as [q|] eqn:Eq; [|discriminate].
  injection Hi as <-. injection Hj as <-.
  rewrite Forall_forall in Hrange.
  destruct (Hrange p (nth_error_In _ _ Ep)) as [Hp1 Hp2].
  destruct (Hrange q (nth_error_In _ _ Eq)) as [Hq1 Hq2].
  unfold name_of in *.
  destruct (name_reads_back seg (fst p) (snd p)) as [Tp Sp]; trivial.
  destruct (name_reads_back seg (fst q) (snd q)) as [Tq Sq]; trivial.
  rewrite Tp, Tq in Heq. rewrite Sp, Sq.
  destruct (StronglySorted_nth (in_order seg) _ i j p q Hsorted Ep Eq Hij)
    as [Hlt | [_ [[Hlow Hle] | [Htop Hlow]]]]; lia.
Qed.

Lemma rows_in_order_unless_wrapped_witness :
  rows_1_to_2 <> [] /\
  forall i j a b,
    nth_error rows_1_to_2 i = Some a -> nth_error rows_1_to_2 j = Some b ->
    (i < j)%nat -> name_timeline a = name_timeline b ->
    (name_segment MB16 a <> last_segment MB16 ->
     name_segment MB16 a <= name_segment MB16 b) /\
    (name_segment MB16 a = last_segment MB16 ->
     name_segment MB16 b < name_segment MB16 a).
Proof.
  destruct (rows_in_order_unless_wrapped MB16 3 1 0 2 83886080 history_of_2
              rows_1_to_2 eq_refl) as [Hne Horder].
  split; [exact Hne|].
  apply Horder; try (unfold MB16; lia).
  exists 256. reflexivity.
Defined.

(** C5, as stated: the call below returns five rows; the third and the
    fourth are on timeline 4, and the segment number read back from the
    fourth, 0, is below the one read back from the third, 2^40 - 1. *)
Lemma rows_go_down_after_wrap :
  exists rows a b,
    run (build_wal_segment_list MB16 3 1 18446744073659219968
           5 18446744073659219968 history_with_wrap) =
      (rows, Returned tt) /\
    rows = ["00000002FFFFFFFF000000FD"; "00000002FFFFFFFF000000FE";
            "00000004FFFFFFFF000000FF"; "000000040000000000000000";
            "00000005FFFFFFFF000000FC"] /\
    nth_error rows 2 = Some a /\ nth_error rows 3 = Some b /\
    name_timeline a = name_timeline b /\
    name_segment MB16 b < name_segment MB16 a.
Proof.
  do 3 eexists. split; [vm_compute; reflexivity|].
  split; [reflexivity|]. split; [reflexivity|]. split; [reflexivity|].
  split; vm_compute; reflexivity.
Qed.

(** * The errors of a data line *)

(** ** The characters of a line *)




















(** ** A conversion and the text it reads *)











(** ** The line *)










